(** * A shallow embedding of [index.py]

    The program solves timed word problems: a language service turns the
    prose into an intent (names of characters, planets and pokemon plus an
    arithmetic expression over their attributes), the names are resolved
    against remote data sources through memoised getters, the expression is
    evaluated with Python's [eval], and the answer is submitted in a loop
    that runs against a wall-clock limit.

    Conventions of the embedding.
    - Python values that travel through JSON are the type [pyval].
    - [str] values are Rocq strings of ASCII characters.
    - [float] values are exact rationals plus the two infinities and NaN:
      the range and the rounding of binary64 are not modelled.
    - Statements run in the monad [M]: a state (requests sent, clock
      readings taken, the three memo tables) is threaded through, and a
      statement ends in a value ([Ok]), in a Python exception ([Raise]) or
      in [Unmodelled] when the run leaves the fragment of Python that the
      embedding follows.  [Unmodelled] says nothing about the real run.
    - The network and the clock are a [world]: the answer to the n-th HTTP
      request and the n-th reading of [time.time()].  Console output is
      left out. *)

From Stdlib Require Import ZArith QArith Qround Ascii String.
From stdpp Require Import base tactics option list strings gmap pretty.

Local Open Scope string_scope.
Local Open Scope list_scope.
Local Set Warnings "-register-all".

(** ** Python values *)

Inductive pyfloat :=
| FFin (q : Q)
| FInf (neg : bool)
| FNan.

Inductive pyval :=
| VNone
| VBool (b : bool)
| VInt (z : Z)
| VFloat (f : pyfloat)
| VStr (s : string)
| VList (l : list pyval)
| VDict (d : list (string * pyval)).

(** The exceptions the program can meet; all of them derive from
    [Exception], so [except Exception] catches every one. *)
Inductive exn :=
| TransportError
| JSONDecodeError
| KeyError
| IndexError
| TypeError
| ValueError
| AttributeError
| NameError
| SyntaxError
| ZeroDivisionError.

Inductive outcome (A : Type) :=
| Ok (a : A)
| Raise (e : exn)
| Unmodelled.
Arguments Ok {A} a.
Arguments Raise {A} e.
Arguments Unmodelled {A}.

(** Pure fallible steps (subscripts, conversions) use [outcome] directly. *)
Definition obind {A B} (m : outcome A) (k : A -> outcome B) : outcome B :=
  match m with
  | Ok a => k a
  | Raise e => Raise e
  | Unmodelled => Unmodelled
  end.

Notation "'let?' x := m 'in' k" := (obind m (fun x => k))
  (at level 10, x name, m at level 100, k at level 200).

(** Truth value of an object, as [if x:] tests it. *)
Definition float_is_zero (f : pyfloat) : bool :=
  match f with
  | FFin q => Qeq_bool q 0
  | _ => false
  end.

Definition truthy (v : pyval) : bool :=
  match v with
  | VNone => false
  | VBool b => b
  | VInt z => negb (Z.eqb z 0)
  | VFloat f => negb (float_is_zero f)
  | VStr s => negb (String.eqb s "")
  | VList l => match l with [] => false | _ => true end
  | VDict d => match d with [] => false | _ => true end
  end.

(** [v != 'unknown'] for a string literal on the right. *)
Definition ne_str (v : pyval) (s : string) : bool :=
  match v with
  | VStr t => negb (String.eqb t s)
  | _ => true
  end.

(** A dict built by [json.loads] keeps the last value of a repeated key;
    the association list is kept in that normal form by [dict_set]. *)
Fixpoint dict_get (d : list (string * pyval)) (k : string) : option pyval :=
  match d with
  | [] => None
  | (k', v) :: d' => if String.eqb k' k then Some v else dict_get d' k
  end.

Fixpoint dict_set (d : list (string * pyval)) (k : string) (v : pyval)
  : list (string * pyval) :=
  match d with
  | [] => [(k, v)]
  | (k', v') :: d' =>
      if String.eqb k' k then (k', v) :: d' else (k', v') :: dict_set d' k v
  end.

(** [v[k]] with a string key. *)
Definition getitem (v : pyval) (k : string) : outcome pyval :=
  match v with
  | VDict d => match dict_get d k with Some x => Ok x | None => Raise KeyError end
  | _ => Raise TypeError
  end.

(** [v[0]]. *)
Definition getitem0 (v : pyval) : outcome pyval :=
  match v with
  | VList (x :: _) => Ok x
  | VList [] => Raise IndexError
  | VStr (String c _) => Ok (VStr (String c ""))
  | VStr EmptyString => Raise IndexError
  | VDict _ => Raise KeyError
  | _ => Raise TypeError
  end.

(** [v.get(k)]: only dicts have the method. *)
Definition dot_get (v : pyval) (k : string) : outcome pyval :=
  match v with
  | VDict d => Ok (default VNone (dict_get d k))
  | _ => Raise AttributeError
  end.

(** [k in v]. *)
Definition contains_key (v : pyval) (k : string) : outcome bool :=
  match v with
  | VDict d => Ok (bool_decide (is_Some (dict_get d k)))
  | VList l =>
      Ok (existsb (fun x => match x with VStr t => String.eqb t k | _ => false end) l)
  | VStr s => Ok (bool_decide (is_Some (String.index 0 k s)))
  | _ => Raise TypeError
  end.

(** ** [float(x)] *)

Definition is_space (c : ascii) : bool :=
  let n := nat_of_ascii c in
  (Nat.eqb n 32 || (Nat.leb 9 n && Nat.leb n 13) || (Nat.leb 28 n && Nat.leb n 31))%bool.

Fixpoint lstrip (cs : list ascii) : list ascii :=
  match cs with
  | c :: cs' => if is_space c then lstrip cs' else cs
  | [] => []
  end.

Definition strip_chars (cs : list ascii) : list ascii :=
  rev (lstrip (rev (lstrip cs))).

(** [s.strip()] *)
Definition str_strip (s : string) : string :=
  string_of_list_ascii (strip_chars (list_ascii_of_string s)).

Definition digit_val (c : ascii) : option Z :=
  let n := nat_of_ascii c in
  if (Nat.leb 48 n && Nat.leb n 57)%bool then Some (Z.of_nat (n - 48)) else None.

Definition is_digit (c : ascii) : bool := bool_decide (is_Some (digit_val c)).

(** One digit, then digits each optionally preceded by one underscore.
    Returns the digits read (as a number and a count) and the rest. *)
Fixpoint digit_tail (acc : Z) (n : nat) (cs : list ascii) : Z * nat * list ascii :=
  match cs with
  | c :: cs' =>
      match digit_val c with
      | Some d => digit_tail (acc * 10 + d) (S n) cs'
      | None =>
          if Ascii.eqb c "_" then
            match cs' with
            | c2 :: cs'' =>
                match digit_val c2 with
                | Some d => digit_tail (acc * 10 + d) (S n) cs''
                | None => (acc, n, cs)
                end
            | [] => (acc, n, cs)
            end
          else (acc, n, cs)
      end
  | [] => (acc, n, [])
  end.

Definition digitpart (acc : Z) (cs : list ascii) : option (Z * nat * list ascii) :=
  match cs with
  | c :: cs' =>
      match digit_val c with
      | Some d => Some (digit_tail (acc * 10 + d) 1 cs')
      | None => None
      end
  | [] => None
  end.

Definition sign_of (cs : list ascii) : bool * list ascii :=
  match cs with
  | c :: cs' =>
      if Ascii.eqb c "-" then (true, cs')
      else if Ascii.eqb c "+" then (false, cs')
      else (false, cs)
  | [] => (false, [])
  end.

(** mantissa digits, number of digits after the point, rest *)
Definition number_part (cs : list ascii) : option (Z * nat * list ascii) :=
  match digitpart 0 cs with
  | Some (ip, _, rest) =>
      match rest with
      | c :: rest' =>
          if Ascii.eqb c "." then
            match digitpart ip rest' with
            | Some (m, k, rest'') => Some (m, k, rest'')
            | None => Some (ip, 0, rest')
            end
          else Some (ip, 0, rest)
      | [] => Some (ip, 0, [])
      end
  | None =>
      match cs with
      | c :: rest' => if Ascii.eqb c "." then digitpart 0 rest' else None
      | [] => None
      end
  end.

Definition exponent_part (cs : list ascii) : option Z :=
  match cs with
  | [] => Some 0%Z
  | c :: cs' =>
      if (Ascii.eqb c "e" || Ascii.eqb c "E")%bool then
        let '(neg, cs'') := sign_of cs' in
        match digitpart 0 cs'' with
        | Some (e, _, []) => Some (if neg then (- e)%Z else e)
        | _ => None
        end
      else None
  end.

Definition lower_char (c : ascii) : ascii :=
  let n := nat_of_ascii c in
  if (Nat.leb 65 n && Nat.leb n 90)%bool then ascii_of_nat (n + 32) else c.

(** [s.lower()] *)
Definition str_lower (s : string) : string :=
  string_of_list_ascii (map lower_char (list_ascii_of_string s)).

Definition float_of_string (s : string) : option pyfloat :=
  let '(neg, cs) := sign_of (strip_chars (list_ascii_of_string s)) in
  let word := string_of_list_ascii (map lower_char cs) in
  if (String.eqb word "inf" || String.eqb word "infinity")%bool then Some (FInf neg)
  else if String.eqb word "nan" then Some FNan
  else
    match number_part cs with
    | Some (m, k, rest) =>
        match exponent_part rest with
        | Some e =>
            let q := Qred (inject_Z m * Qpower (10 # 1) (e - Z.of_nat k)) in
            Some (FFin (if neg then Qred (- q) else q))
        | None => None
        end
    | None => None
    end.

Definition py_float (v : pyval) : outcome pyfloat :=
  match v with
  | VStr s => match float_of_string s with Some f => Ok f | None => Raise ValueError end
  | VInt z => Ok (FFin (inject_Z z))
  | VBool b => Ok (FFin (if b then 1 else 0))
  | VFloat f => Ok f
  | VNone | VList _ | VDict _ => Raise TypeError
  end.

(** [s.replace(',', '')]: only [str] has the method. *)
Definition remove_commas (s : string) : string :=
  string_of_list_ascii
    (filter (fun c => c <> ","%char) (list_ascii_of_string s)).

Definition dot_replace_commas (v : pyval) : outcome pyval :=
  match v with
  | VStr s => Ok (VStr (remove_commas s))
  | _ => Raise AttributeError
  end.

(** ** The world, the state and the monad of statements *)

Inductive request :=
| Get (url : string)
| PostChat (problem_text : pyval)
| PostSolution (problem_id answer : pyval).

(** What a request ends in: the call raises, or a response arrives whose
    body is or is not JSON. *)
Inductive reply :=
| Fails
| Body (json : option pyval).

Record world := {
  respond : nat -> request -> reply;
  clock : nat -> Q
}.

(** A resolved entity is the dict the getter returns. *)
Definition entity := list (string * pyval).

(** One memo table of [lru_cache], most recently used first. *)
Definition cache := list (string * option entity).

Record state := {
  sent : list request;
  ticks : nat;
  character_cache : cache;
  planet_cache : cache;
  pokemon_cache : cache
}.

Definition initial : state :=
  {| sent := []; ticks := 0;
     character_cache := []; planet_cache := []; pokemon_cache := [] |}.

Definition M (A : Type) : Type := state -> outcome A * state.

Definition ret {A} (a : A) : M A := fun st => (Ok a, st).

Definition bind {A B} (m : M A) (k : A -> M B) : M B :=
  fun st =>
    match m st with
    | (Ok a, st') => k a st'
    | (Raise e, st') => (Raise e, st')
    | (Unmodelled, st') => (Unmodelled, st')
    end.

Definition lift {A} (o : outcome A) : M A := fun st => (o, st).

(** [try: body / except Exception: handler] *)
Definition try_except {A} (body : M A) (handler : exn -> M A) : M A :=
  fun st =>
    match body st with
    | (Raise e, st') => handler e st'
    | other => other
    end.

Notation "'do' x <- m ;; k" := (bind m (fun x => k))
  (at level 10, x name, m at level 99, k at level 200).

Section Program.

Variable W : world.

(** [session.get] and [session.post]: the request is recorded and the
    world answers it. *)
Definition session_send (r : request) : M (option pyval) :=
  fun st =>
    let st' := {| sent := r :: sent st; ticks := ticks st;
                  character_cache := character_cache st;
                  planet_cache := planet_cache st;
                  pokemon_cache := pokemon_cache st |} in
    match respond W (length (sent st)) r with
    | Fails => (Raise TransportError, st')
    | Body b => (Ok b, st')
    end.

(** [session.get(url)] where [url] came out of a payload: anything but a
    [str] is rejected by the HTTP library before a request is made. *)
Definition session_get_val (url : pyval) : M (option pyval) :=
  match url with
  | VStr u => session_send (Get u)
  | _ => lift (Raise TransportError)
  end.

(** [response.json()] *)
Definition response_json (r : option pyval) : outcome pyval :=
  match r with
  | Some v => Ok v
  | None => Raise JSONDecodeError
  end.

(** [time.time()] *)
Definition time_time : M Q :=
  fun st =>
    (Ok (clock W (ticks st)),
     {| sent := sent st; ticks := S (ticks st);
        character_cache := character_cache st;
        planet_cache := planet_cache st;
        pokemon_cache := pokemon_cache st |}).

(** ** [functools.lru_cache] *)

Fixpoint cache_find (c : cache) (k : string) : option (option entity) :=
  match c with
  | [] => None
  | (k', v) :: c' => if String.eqb k' k then Some v else cache_find c' k
  end.

Fixpoint cache_remove (c : cache) (k : string) : cache :=
  match c with
  | [] => []
  | (k', v) :: c' =>
      if String.eqb k' k then cache_remove c' k else (k', v) :: cache_remove c' k
  end.

(** A hit returns the stored result and makes the entry the most recent
    one; a miss calls the function and stores whatever it returns, dropping
    the least recently used entry when the table is full.  A call that
    raises stores nothing. *)
Definition lru_cache (maxsize : nat)
    (table : state -> cache) (store : cache -> state -> state)
    (f : string -> M (option entity)) (name : string) : M (option entity) :=
  fun st =>
    match cache_find (table st) name with
    | Some v => (Ok v, store ((name, v) :: cache_remove (table st) name) st)
    | None =>
        match f name st with
        | (Ok v, st') =>
            match cache_find (table st') name with
            | Some _ => (Ok v, st')
            | None => (Ok v, store (take maxsize ((name, v) :: table st')) st')
            end
        | other => other
        end
    end.

Definition store_character (c : cache) (st : state) : state :=
  {| sent := sent st; ticks := ticks st; character_cache := c;
     planet_cache := planet_cache st; pokemon_cache := pokemon_cache st |}.

Definition store_planet (c : cache) (st : state) : state :=
  {| sent := sent st; ticks := ticks st; character_cache := character_cache st;
     planet_cache := c; pokemon_cache := pokemon_cache st |}.

Definition store_pokemon (c : cache) (st : state) : state :=
  {| sent := sent st; ticks := ticks st; character_cache := character_cache st;
     planet_cache := planet_cache st; pokemon_cache := c |}.

(** ** The getters *)

Definition SWAPI_URL : string := "https://swapi.dev/api".
Definition POKEAPI_URL : string := "https://pokeapi.co/api/v2".

(** [float(d[k]) if d[k] != 'unknown' else 0] *)
Definition float_unless_unknown (d : pyval) (k : string) : outcome pyval :=
  let? c := getitem d k in
  if ne_str c "unknown" then
    let? x := getitem d k in
    let? f := py_float x in
    Ok (VFloat f)
  else Ok (VInt 0).

(** [float(d[k].replace(',', '')) if d[k] != 'unknown' else 0] *)
Definition float_commas_unless_unknown (d : pyval) (k : string) : outcome pyval :=
  let? c := getitem d k in
  if ne_str c "unknown" then
    let? x := getitem d k in
    let? y := dot_replace_commas x in
    let? f := py_float y in
    Ok (VFloat f)
  else Ok (VInt 0).

(** [float(d[k]) if d[k] else 0] *)
Definition float_if_truthy (d : pyval) (k : string) : outcome pyval :=
  let? c := getitem d k in
  if truthy c then
    let? x := getitem d k in
    let? f := py_float x in
    Ok (VFloat f)
  else Ok (VInt 0).

(** [float(d[k])] *)
Definition float_of_item (d : pyval) (k : string) : outcome pyval :=
  let? x := getitem d k in
  let? f := py_float x in
  Ok (VFloat f).

Definition character_fetch (name : string) : M (option entity) :=
  try_except
    (do response <- session_send (Get (SWAPI_URL ++ "/people/?search=" ++ name)) ;;
     do data <- lift (response_json response) ;;
     do results <- lift (getitem data "results") ;;
     if truthy results then
       do char <- lift (getitem0 results) ;;
       do homeworld_url <- lift (dot_get char "homeworld") ;;
       do homeworld_name <-
         (if truthy homeworld_url then
            do hw_response <- session_get_val homeworld_url ;;
            do hw <- lift (response_json hw_response) ;;
            lift (dot_get hw "name")
          else ret VNone) ;;
       do name_ <- lift (getitem char "name") ;;
       do height <- lift (float_unless_unknown char "height") ;;
       do mass <- lift (float_commas_unless_unknown char "mass") ;;
       ret (Some [("name", name_); ("height", height); ("mass", mass);
                  ("homeworld", homeworld_name)])
     else ret None)
    (fun _ => ret None).

Definition planet_fetch (name : string) : M (option entity) :=
  try_except
    (do response <- session_send (Get (SWAPI_URL ++ "/planets/?search=" ++ name)) ;;
     do data <- lift (response_json response) ;;
     do results <- lift (getitem data "results") ;;
     if truthy results then
       do planet <- lift (getitem0 results) ;;
       do name_ <- lift (getitem planet "name") ;;
       do rotation_period <- lift (float_unless_unknown planet "rotation_period") ;;
       do orbital_period <- lift (float_unless_unknown planet "orbital_period") ;;
       do diameter <- lift (float_unless_unknown planet "diameter") ;;
       do surface_water <- lift (float_unless_unknown planet "surface_water") ;;
       do population <- lift (float_unless_unknown planet "population") ;;
       ret (Some [("name", name_); ("rotation_period", rotation_period);
                  ("orbital_period", orbital_period); ("diameter", diameter);
                  ("surface_water", surface_water); ("population", population)])
     else ret None)
    (fun _ => ret None).

Definition pokemon_fetch (name : string) : M (option entity) :=
  try_except
    (do response <- session_send (Get (POKEAPI_URL ++ "/pokemon/" ++ str_lower name)) ;;
     do data <- lift (response_json response) ;;
     do name_ <- lift (getitem data "name") ;;
     do base_experience <- lift (float_if_truthy data "base_experience") ;;
     do height <- lift (float_of_item data "height") ;;
     do weight <- lift (float_of_item data "weight") ;;
     ret (Some [("name", name_); ("base_experience", base_experience);
                ("height", height); ("weight", weight)]))
    (fun _ => ret None).

Definition get_star_wars_character : string -> M (option entity) :=
  lru_cache 128 character_cache store_character character_fetch.

Definition get_star_wars_planet : string -> M (option entity) :=
  lru_cache 128 planet_cache store_planet planet_fetch.

Definition get_pokemon : string -> M (option entity) :=
  lru_cache 128 pokemon_cache store_pokemon pokemon_fetch.

End Program.

(** ** [json.loads]

    The decoder follows the standard library's: optional whitespace, one
    value, optional whitespace, end of text.  Two things are left out and
    end in [Unmodelled]: the [\u] escape and characters outside ASCII
    (strings are ASCII here), and nesting deeper than [json_depth]
    (where the real decoder may exhaust its stack). *)

Definition json_depth : nat := 100.

Fixpoint skip_ws (cs : list ascii) : list ascii :=
  match cs with
  | c :: cs' =>
      let n := nat_of_ascii c in
      if (Nat.eqb n 32 || Nat.eqb n 9 || Nat.eqb n 10 || Nat.eqb n 13)%bool
      then skip_ws cs' else cs
  | [] => []
  end.

Definition quote : ascii := ascii_of_nat 34.
Definition backslash : ascii := ascii_of_nat 92.

(** The body of a string literal, after the opening quote. *)
Fixpoint json_string (acc : list ascii) (cs : list ascii)
  : outcome (string * list ascii) :=
  match cs with
  | [] => Raise JSONDecodeError
  | c :: cs' =>
      if Ascii.eqb c quote then Ok (string_of_list_ascii (rev acc), cs')
      else if Ascii.eqb c backslash then
        match cs' with
        | [] => Raise JSONDecodeError
        | e :: cs'' =>
            if Ascii.eqb e quote then json_string (quote :: acc) cs''
            else if Ascii.eqb e backslash then json_string (backslash :: acc) cs''
            else if Ascii.eqb e "/" then json_string ("/"%char :: acc) cs''
            else if Ascii.eqb e "b" then json_string (ascii_of_nat 8 :: acc) cs''
            else if Ascii.eqb e "f" then json_string (ascii_of_nat 12 :: acc) cs''
            else if Ascii.eqb e "n" then json_string (ascii_of_nat 10 :: acc) cs''
            else if Ascii.eqb e "r" then json_string (ascii_of_nat 13 :: acc) cs''
            else if Ascii.eqb e "t" then json_string (ascii_of_nat 9 :: acc) cs''
            else if Ascii.eqb e "u" then Unmodelled
            else Raise JSONDecodeError
        end
      else if Nat.ltb (nat_of_ascii c) 32 then Raise JSONDecodeError
      else if Nat.leb 128 (nat_of_ascii c) then Unmodelled
      else json_string (c :: acc) cs'
  end.

(** Plain digits, no underscores: the digits read and the rest. *)
Fixpoint plain_digits (acc : Z) (n : nat) (cs : list ascii) : Z * nat * list ascii :=
  match cs with
  | c :: cs' =>
      match digit_val c with
      | Some d => plain_digits (acc * 10 + d) (S n) cs'
      | None => (acc, n, cs)
      end
  | [] => (acc, n, [])
  end.

(** A number at the head of [cs]: an optional minus, then 0 or a digit
    string without leading zero, then optionally a point with at least one
    digit, then optionally e or E, a sign and at least one digit.  The
    result is an [int] when neither fraction nor exponent is present. *)
Definition json_number (cs : list ascii) : option (pyval * list ascii) :=
  let '(neg, cs1) :=
    match cs with
    | c :: cs' => if Ascii.eqb c "-" then (true, cs') else (false, cs)
    | [] => (false, [])
    end in
  let int_part :=
    match cs1 with
    | c :: cs' =>
        if Ascii.eqb c "0" then Some (0%Z, cs')
        else match digit_val c with
             | Some d => let '(z, _, r) := plain_digits d 1 cs' in Some (z, r)
             | None => None
             end
    | [] => None
    end in
  match int_part with
  | None => None
  | Some (ip, cs2) =>
      let '(m, k, cs3, has_frac) :=
        match cs2 with
        | c :: cs' =>
            if Ascii.eqb c "." then
              match plain_digits ip 0 cs' with
              | (_, O, _) => (ip, 0, cs2, false)
              | (m, k, r) => (m, k, r, true)
              end
            else (ip, 0, cs2, false)
        | [] => (ip, 0, cs2, false)
        end in
      let '(e, cs4, has_exp) :=
        match cs3 with
        | c :: cs' =>
            if (Ascii.eqb c "e" || Ascii.eqb c "E")%bool then
              let '(eneg, cs'') :=
                match cs' with
                | s :: r =>
                    if Ascii.eqb s "-" then (true, r)
                    else if Ascii.eqb s "+" then (false, r)
                    else (false, cs')
                | [] => (false, [])
                end in
              match plain_digits 0 0 cs'' with
              | (_, O, _) => (0%Z, cs3, false)
              | (e, _, r) => ((if eneg then - e else e)%Z, r, true)
              end
            else (0%Z, cs3, false)
        | [] => (0%Z, cs3, false)
        end in
      if (has_frac || has_exp)%bool then
        let q := Qred (inject_Z m * Qpower (10 # 1) (e - Z.of_nat k)) in
        Some (VFloat (FFin (if neg then Qred (- q) else q)), cs4)
      else Some (VInt (if neg then - ip else ip)%Z, cs4)
  end.

(** [cs] starts with the characters of [w]: the rest after them. *)
Fixpoint expect (w : list ascii) (cs : list ascii) : option (list ascii) :=
  match w, cs with
  | [], _ => Some cs
  | a :: w', c :: cs' => if Ascii.eqb a c then expect w' cs' else None
  | _ :: _, [] => None
  end.

Definition json_literal (cs : list ascii) : option (pyval * list ascii) :=
  match expect (list_ascii_of_string "null") cs with
  | Some r => Some (VNone, r)
  | None =>
  match expect (list_ascii_of_string "true") cs with
  | Some r => Some (VBool true, r)
  | None =>
  match expect (list_ascii_of_string "false") cs with
  | Some r => Some (VBool false, r)
  | None =>
  match expect (list_ascii_of_string "NaN") cs with
  | Some r => Some (VFloat FNan, r)
  | None =>
  match expect (list_ascii_of_string "Infinity") cs with
  | Some r => Some (VFloat (FInf false), r)
  | None =>
  match expect (list_ascii_of_string "-Infinity") cs with
  | Some r => Some (VFloat (FInf true), r)
  | None => json_number cs
  end end end end end end.

(** [json_value] reads one value at the head of [cs] (no leading
    whitespace); [json_elements] reads the rest of an array after [[] and
    [json_members] the rest of an object after [{], both positioned on
    the first item. *)
Fixpoint json_value (fuel depth : nat) (cs : list ascii) {struct fuel}
  : outcome (pyval * list ascii) :=
  match fuel with
  | O => Unmodelled
  | S fuel' =>
      match cs with
      | [] => Raise JSONDecodeError
      | c :: cs' =>
          if Ascii.eqb c quote then
            let? r := json_string [] cs' in Ok (VStr (fst r), snd r)
          else if Ascii.eqb c "[" then
            match depth with
            | O => Unmodelled
            | S depth' =>
                match skip_ws cs' with
                | c2 :: r =>
                    if Ascii.eqb c2 "]" then Ok (VList [], r)
                    else json_elements fuel' depth' [] (c2 :: r)
                | [] => Raise JSONDecodeError
                end
            end
          else if Ascii.eqb c "{" then
            match depth with
            | O => Unmodelled
            | S depth' =>
                match skip_ws cs' with
                | c2 :: r =>
                    if Ascii.eqb c2 "}" then Ok (VDict [], r)
                    else json_members fuel' depth' [] (c2 :: r)
                | [] => Raise JSONDecodeError
                end
            end
          else
            match json_literal cs with
            | Some r => Ok r
            | None => Raise JSONDecodeError
            end
      end
  end
with json_elements (fuel depth : nat) (acc : list pyval) (cs : list ascii)
  {struct fuel} : outcome (pyval * list ascii) :=
  match fuel with
  | O => Unmodelled
  | S fuel' =>
      let? r := json_value fuel' depth cs in
      match skip_ws (snd r) with
      | c :: rest =>
          if Ascii.eqb c "," then json_elements fuel' depth (acc ++ [fst r]) (skip_ws rest)
          else if Ascii.eqb c "]" then Ok (VList (acc ++ [fst r]), rest)
          else Raise JSONDecodeError
      | [] => Raise JSONDecodeError
      end
  end
with json_members (fuel depth : nat) (acc : list (string * pyval)) (cs : list ascii)
  {struct fuel} : outcome (pyval * list ascii) :=
  match fuel with
  | O => Unmodelled
  | S fuel' =>
      match cs with
      | c :: cs' =>
          if Ascii.eqb c quote then
            let? k := json_string [] cs' in
            match skip_ws (snd k) with
            | colon :: after =>
                if Ascii.eqb colon ":" then
                  let? r := json_value fuel' depth (skip_ws after) in
                  match skip_ws (snd r) with
                  | c2 :: rest =>
                      if Ascii.eqb c2 "," then
                        json_members fuel' depth (dict_set acc (fst k) (fst r)) (skip_ws rest)
                      else if Ascii.eqb c2 "}" then
                        Ok (VDict (dict_set acc (fst k) (fst r)), rest)
                      else Raise JSONDecodeError
                  | [] => Raise JSONDecodeError
                  end
                else Raise JSONDecodeError
            | [] => Raise JSONDecodeError
            end
          else Raise JSONDecodeError
      | [] => Raise JSONDecodeError
      end
  end.

Definition json_loads (s : string) : outcome pyval :=
  let cs := skip_ws (list_ascii_of_string s) in
  let? r := json_value (S (length cs)) json_depth cs in
  match skip_ws (snd r) with
  | [] => Ok (fst r)
  | _ :: _ => Raise JSONDecodeError
  end.

(** ** Expressions of [eval]

    The operation string is handed to Python's [eval].  The embedding
    follows a fragment of the expression language: literals, names,
    attribute access, subscripts, unary and binary [+ - * /] and
    parentheses, in strings of at most [max_tokens] tokens.  Everything
    else (calls, comparisons, lambdas, string escapes, longer texts, ...)
    is outside the fragment: [py_parse] answers [None], and the run is
    [Unmodelled]. *)

Inductive binop := Add | Sub | Mul | Div.

Inductive expr :=
| ELit (v : pyval)
| EName (x : string)
| EAttr (e : expr) (a : string)
| EIndex (e k : expr)
| ENeg (e : expr)
| EPos (e : expr)
| EBin (op : binop) (l r : expr).

Inductive token :=
| TNum (v : pyval)
| TStr (s : string)
| TName (x : string)
| TSym (c : ascii).

Definition is_name_start (c : ascii) : bool :=
  let n := nat_of_ascii c in
  ((Nat.leb 65 n && Nat.leb n 90) || (Nat.leb 97 n && Nat.leb n 122) || Nat.eqb n 95)%bool.

Definition is_name_char (c : ascii) : bool := (is_name_start c || is_digit c)%bool.

Fixpoint take_while (p : ascii -> bool) (cs : list ascii) : list ascii * list ascii :=
  match cs with
  | c :: cs' =>
      if p c then let '(a, r) := take_while p cs' in (c :: a, r) else ([], cs)
  | [] => ([], [])
  end.

(** A quoted text without escapes: up to the closing quote [q]. *)
Fixpoint string_body (q : ascii) (acc : list ascii) (cs : list ascii)
  : option (string * list ascii) :=
  match cs with
  | [] => None
  | c :: cs' =>
      if Ascii.eqb c q then Some (string_of_list_ascii (rev acc), cs')
      else if (Ascii.eqb c backslash || Nat.ltb (nat_of_ascii c) 32
               || Nat.leb 127 (nat_of_ascii c))%bool then None
      else string_body q (c :: acc) cs'
  end.

Definition digits_value (ds : list ascii) : Z :=
  fold_left (fun acc c => (acc * 10 + default 0 (digit_val c))%Z) ds 0%Z.

(** A decimal literal: digits, optionally a point and digits; or a point
    and digits.  Literals with a superfluous leading zero, exponents,
    underscores and other bases are outside the fragment. *)
Definition number_token (cs : list ascii) : option (pyval * list ascii) :=
  let '(ip, r) := take_while is_digit cs in
  let leading_zero :=
    match ip with
    | z :: _ :: _ => Ascii.eqb z "0"
    | _ => false
    end in
  if leading_zero then None
  else
    match r with
    | c :: r' =>
        if Ascii.eqb c "." then
          let '(fp, r'') := take_while is_digit r' in
          match ip, fp with
          | [], [] => None
          | _, _ =>
              Some (VFloat (FFin (Qred (inject_Z (digits_value (ip ++ fp))
                                        * Qpower (10 # 1) (- Z.of_nat (length fp))))),
                    r'')
          end
        else
          match ip with
          | [] => None
          | _ => Some (VInt (digits_value ip), r)
          end
    | [] =>
        match ip with
        | [] => None
        | _ => Some (VInt (digits_value ip), [])
        end
    end.

Definition is_symbol (c : ascii) : bool :=
  existsb (Ascii.eqb c) (list_ascii_of_string "+-*/()[].").

Fixpoint tokenize (fuel : nat) (cs : list ascii) : option (list token) :=
  match fuel with
  | O => None
  | S fuel' =>
      match cs with
      | [] => Some []
      | c :: cs' =>
          if Ascii.eqb c " " then tokenize fuel' cs'
          else if (is_digit c || (Ascii.eqb c "."
                     && match cs' with d :: _ => is_digit d | [] => false end))%bool then
            match number_token cs with
            | Some (v, r) => option_map (cons (TNum v)) (tokenize fuel' r)
            | None => None
            end
          else if is_name_start c then
            let '(x, r) := take_while is_name_char cs in
            option_map (cons (TName (string_of_list_ascii x))) (tokenize fuel' r)
          else if (Ascii.eqb c "'" || Ascii.eqb c quote)%bool then
            match string_body c [] cs' with
            | Some (s, r) => option_map (cons (TStr s)) (tokenize fuel' r)
            | None => None
            end
          else if is_symbol c then option_map (cons (TSym c)) (tokenize fuel' cs')
          else None
      end
  end.

(** Reserved words cannot be names; [None], [True] and [False] are
    constants, the others put the text outside the fragment, as does
    [__debug__]. *)
Definition reserved : list string :=
  ["and"; "as"; "assert"; "async"; "await"; "break"; "class"; "continue";
   "def"; "del"; "elif"; "else"; "except"; "finally"; "for"; "from";
   "global"; "if"; "import"; "in"; "is"; "lambda"; "nonlocal"; "not"; "or";
   "pass"; "raise"; "return"; "try"; "while"; "with"; "yield"; "__debug__"].

Definition atom_of_name (x : string) : option expr :=
  if String.eqb x "None" then Some (ELit VNone)
  else if String.eqb x "True" then Some (ELit (VBool true))
  else if String.eqb x "False" then Some (ELit (VBool false))
  else if existsb (String.eqb x) reserved then None
  else Some (EName x).

(** Recursive descent, following the grammar of the language:
    a sum of terms, a term a product of factors, a factor a signed
    primary, a primary an atom followed by attribute and subscript
    suffixes. *)
Fixpoint parse_sum (fuel : nat) (ts : list token) {struct fuel}
  : option (expr * list token) :=
  match fuel with
  | O => None
  | S fuel' =>
      match parse_term fuel' ts with
      | Some (l, r) => sum_tail fuel' l r
      | None => None
      end
  end
with sum_tail (fuel : nat) (l : expr) (ts : list token) {struct fuel}
  : option (expr * list token) :=
  match fuel with
  | O => None
  | S fuel' =>
      match ts with
      | TSym c :: r =>
          if Ascii.eqb c "+" then
            match parse_term fuel' r with
            | Some (t, r') => sum_tail fuel' (EBin Add l t) r'
            | None => None
            end
          else if Ascii.eqb c "-" then
            match parse_term fuel' r with
            | Some (t, r') => sum_tail fuel' (EBin Sub l t) r'
            | None => None
            end
          else Some (l, ts)
      | _ => Some (l, ts)
      end
  end
with parse_term (fuel : nat) (ts : list token) {struct fuel}
  : option (expr * list token) :=
  match fuel with
  | O => None
  | S fuel' =>
      match parse_factor fuel' ts with
      | Some (l, r) => term_tail fuel' l r
      | None => None
      end
  end
with term_tail (fuel : nat) (l : expr) (ts : list token) {struct fuel}
  : option (expr * list token) :=
  match fuel with
  | O => None
  | S fuel' =>
      match ts with
      | TSym c :: r =>
          if Ascii.eqb c "*" then
            match parse_factor fuel' r with
            | Some (t, r') => term_tail fuel' (EBin Mul l t) r'
            | None => None
            end
          else if Ascii.eqb c "/" then
            match parse_factor fuel' r with
            | Some (t, r') => term_tail fuel' (EBin Div l t) r'
            | None => None
            end
          else Some (l, ts)
      | _ => Some (l, ts)
      end
  end
with parse_factor (fuel : nat) (ts : list token) {struct fuel}
  : option (expr * list token) :=
  match fuel with
  | O => None
  | S fuel' =>
      match ts with
      | TSym c :: r =>
          if Ascii.eqb c "-" then
            match parse_factor fuel' r with
            | Some (e, r') => Some (ENeg e, r')
            | None => None
            end
          else if Ascii.eqb c "+" then
            match parse_factor fuel' r with
            | Some (e, r') => Some (EPos e, r')
            | None => None
            end
          else parse_primary fuel' ts
      | _ => parse_primary fuel' ts
      end
  end
with parse_primary (fuel : nat) (ts : list token) {struct fuel}
  : option (expr * list token) :=
  match fuel with
  | O => None
  | S fuel' =>
      match ts with
      | TNum v :: r => suffixes fuel' (ELit v) r
      | TStr s :: r => suffixes fuel' (ELit (VStr s)) r
      | TName x :: r =>
          match atom_of_name x with
          | Some a => suffixes fuel' a r
          | None => None
          end
      | TSym c :: r =>
          if Ascii.eqb c "(" then
            match parse_sum fuel' r with
            | Some (e, TSym c2 :: r') =>
                if Ascii.eqb c2 ")" then suffixes fuel' e r' else None
            | _ => None
            end
          else None
      | [] => None
      end
  end
with suffixes (fuel : nat) (e : expr) (ts : list token) {struct fuel}
  : option (expr * list token) :=
  match fuel with
  | O => None
  | S fuel' =>
      match ts with
      | TSym c :: r =>
          if Ascii.eqb c "." then
            match r with
            | TName a :: r' =>
                if existsb (String.eqb a) ("None" :: "True" :: "False" :: reserved)
                then None else suffixes fuel' (EAttr e a) r'
            | _ => None
            end
          else if Ascii.eqb c "[" then
            match parse_sum fuel' r with
            | Some (k, TSym c2 :: r') =>
                if Ascii.eqb c2 "]" then suffixes fuel' (EIndex e k) r' else None
            | _ => None
            end
          else Some (e, ts)
      | _ => Some (e, ts)
      end
  end.

Definition max_tokens : nat := 200.

Definition py_parse (s : string) : option expr :=
  let cs := list_ascii_of_string s in
  match tokenize (S (length cs)) cs with
  | Some ts =>
      if Nat.ltb max_tokens (length ts) then None
      else
        match parse_sum (8 * length ts + 8) ts with
        | Some (e, []) => Some e
        | _ => None
        end
  | None => None
  end.

(** ** Evaluation

    What an expression can evaluate to: plain data, an [Entity] object
    (the attributes that [__init__] copied from the getter's dict), the
    bound [__init__] of such an object, the global dict of the module
    (what [__init__.__globals__] is) and the objects bound to the names
    that the module defines at top level. *)

Inductive value :=
| Data (v : pyval)
| Instance (attrs : entity)
| InitMethod (attrs : entity)
| ModuleGlobals
| ModuleGlobal (name : string).

(** The names bound at the top level of [index.py]. *)
Definition module_names : list string :=
  ["requests"; "HTTPAdapter"; "Retry"; "json"; "time"; "os"; "Dict"; "Any";
   "Optional"; "lru_cache"; "load_dotenv"; "TOKEN"; "HEADERS"; "BASE_URL";
   "SWAPI_URL"; "POKEAPI_URL"; "session"; "retry"; "adapter";
   "get_star_wars_character"; "get_star_wars_planet"; "get_pokemon";
   "interpret_problem"; "solve_problem"; "test_practice"; "run_challenge"].

(** Numbers: [bool] counts as [int]. *)
Inductive number :=
| NInt (z : Z)
| NFloat (f : pyfloat).

Definition as_number (v : value) : option number :=
  match v with
  | Data (VInt z) => Some (NInt z)
  | Data (VBool b) => Some (NInt (if b then 1 else 0))
  | Data (VFloat f) => Some (NFloat f)
  | _ => None
  end.

Definition to_float (n : number) : pyfloat :=
  match n with
  | NInt z => FFin (inject_Z z)
  | NFloat f => f
  end.

Definition of_number (n : number) : value :=
  match n with
  | NInt z => Data (VInt z)
  | NFloat f => Data (VFloat f)
  end.

Definition is_negative (q : Q) : bool := Z.ltb (Qnum q) 0.

Definition float_neg (a : pyfloat) : pyfloat :=
  match a with
  | FFin q => FFin (Qred (- q))
  | FInf n => FInf (negb n)
  | FNan => FNan
  end.

Definition float_add (a b : pyfloat) : pyfloat :=
  match a, b with
  | FNan, _ | _, FNan => FNan
  | FFin x, FFin y => FFin (Qred (x + y))
  | FInf n, FInf m => if Bool.eqb n m then FInf n else FNan
  | FInf n, FFin _ | FFin _, FInf n => FInf n
  end.

Definition float_mul (a b : pyfloat) : pyfloat :=
  match a, b with
  | FNan, _ | _, FNan => FNan
  | FFin x, FFin y => FFin (Qred (x * y))
  | FInf n, FInf m => FInf (xorb n m)
  | FInf n, FFin y | FFin y, FInf n =>
      if Qeq_bool y 0 then FNan else FInf (xorb n (is_negative y))
  end.

(** [a / b] for a divisor that is not zero. *)
Definition float_div (a b : pyfloat) : pyfloat :=
  match a, b with
  | FNan, _ | _, FNan => FNan
  | FFin x, FFin y => FFin (Qred (x / y))
  | FInf _, FInf _ => FNan
  | FInf n, FFin y => FInf (xorb n (is_negative y))
  | FFin _, FInf _ => FFin 0
  end.

Definition arith (op : binop) (a b : number) : outcome value :=
  match op, a, b with
  | Add, NInt x, NInt y => Ok (Data (VInt (x + y)))
  | Sub, NInt x, NInt y => Ok (Data (VInt (x - y)))
  | Mul, NInt x, NInt y => Ok (Data (VInt (x * y)))
  | Add, _, _ => Ok (Data (VFloat (float_add (to_float a) (to_float b))))
  | Sub, _, _ => Ok (Data (VFloat (float_add (to_float a) (float_neg (to_float b)))))
  | Mul, _, _ => Ok (Data (VFloat (float_mul (to_float a) (to_float b))))
  | Div, _, _ =>
      if float_is_zero (to_float b) then Raise ZeroDivisionError
      else Ok (Data (VFloat (float_div (to_float a) (to_float b))))
  end.

(** [o.a] *)
Definition get_attr (o : value) (a : string) : outcome value :=
  match o with
  | Instance attrs =>
      match dict_get attrs a with
      | Some v => Ok (Data v)
      | None => if String.eqb a "__init__" then Ok (InitMethod attrs) else Unmodelled
      end
  | InitMethod _ => if String.eqb a "__globals__" then Ok ModuleGlobals else Unmodelled
  | _ => Unmodelled
  end.

(** [o[k]] *)
Definition get_index (o k : value) : outcome value :=
  match o, k with
  | ModuleGlobals, Data (VStr x) =>
      if existsb (String.eqb x) module_names then Ok (ModuleGlobal x) else Unmodelled
  | Data (VDict d), Data (VStr x) =>
      match dict_get d x with
      | Some v => Ok (Data v)
      | None => Raise KeyError
      end
  | _, _ => Unmodelled
  end.

(** Names are looked up in the locals (the namespace of entities), then
    in the globals, which hold the one key [__builtins__] bound to an
    empty dict, then in those empty builtins. *)
Definition lookup_name (namespace : gmap string entity) (x : string) : outcome value :=
  match namespace !! x with
  | Some attrs => Ok (Instance attrs)
  | None => if String.eqb x "__builtins__" then Ok (Data (VDict [])) else Raise NameError
  end.

Fixpoint eval_expr (namespace : gmap string entity) (e : expr) : outcome value :=
  match e with
  | ELit v => Ok (Data v)
  | EName x => lookup_name namespace x
  | EAttr e a => let? o := eval_expr namespace e in get_attr o a
  | EIndex e k =>
      let? o := eval_expr namespace e in
      let? i := eval_expr namespace k in
      get_index o i
  | ENeg e =>
      let? v := eval_expr namespace e in
      match as_number v with
      | Some (NInt z) => Ok (Data (VInt (- z)))
      | Some (NFloat f) => Ok (Data (VFloat (float_neg f)))
      | None => Unmodelled
      end
  | EPos e =>
      let? v := eval_expr namespace e in
      match as_number v with
      | Some n => Ok (of_number n)
      | None => Unmodelled
      end
  | EBin op l r =>
      let? a := eval_expr namespace l in
      let? b := eval_expr namespace r in
      match as_number a, as_number b with
      | Some x, Some y => arith op x y
      | _, _ => Unmodelled
      end
  end.

(** [eval(operation, {"__builtins__": {}}, namespace)]: the first argument
    has to be a string. *)
Definition py_eval (operation : pyval) (namespace : gmap string entity)
  : outcome value :=
  match operation with
  | VStr s =>
      match py_parse s with
      | Some e => eval_expr namespace e
      | None => Unmodelled
      end
  | _ => Raise TypeError
  end.

(** Nearest integer, ties to the even one. *)
Definition round_half_even (q : Q) : Z :=
  let f := Qfloor q in
  let r := Qred (q - inject_Z f) in
  match Qcompare r (1 # 2) with
  | Lt => f
  | Gt => (f + 1)%Z
  | Eq => if Z.even f then f else (f + 1)%Z
  end.

(** [round(x, 10)]: an [int] stays as it is, a [float] is rounded to ten
    decimals, anything else has no [__round__]. *)
Definition round10 (v : value) : outcome pyval :=
  match v with
  | Data (VInt z) => Ok (VInt z)
  | Data (VBool b) => Ok (VInt (if b then 1 else 0))
  | Data (VFloat (FFin q)) =>
      Ok (VFloat (FFin (Qred (inject_Z (round_half_even (q * inject_Z (10 ^ 10)))
                             / inject_Z (10 ^ 10)))))
  | Data (VFloat f) => Ok (VFloat f)
  | _ => Raise TypeError
  end.

(** ** [interpret_problem] *)

Definition newline : ascii := ascii_of_nat 10.

(** [s.split('\n')] *)
Fixpoint split_lines_aux (cur : list ascii) (cs : list ascii) : list string :=
  match cs with
  | [] => [string_of_list_ascii (rev cur)]
  | c :: cs' =>
      if Ascii.eqb c newline
      then string_of_list_ascii (rev cur) :: split_lines_aux [] cs'
      else split_lines_aux (c :: cur) cs'
  end.

Definition split_lines (s : string) : list string :=
  split_lines_aux [] (list_ascii_of_string s).

(** ['\n'.join(l)] *)
Fixpoint join_lines (l : list string) : string :=
  match l with
  | [] => ""
  | [x] => x
  | x :: l' => x ++ String newline (join_lines l')
  end.

(** [l[1:-1]] *)
Definition drop_first_last {A} (l : list A) : list A :=
  take (length l - 2) (drop 1 l).

(** [s[4:]] *)
Definition drop4 (s : string) : string :=
  string_of_list_ascii (drop 4 (list_ascii_of_string s)).

(** The fence is removed when the text starts with three backquotes. *)
Definition strip_fence (content : string) : string :=
  if String.prefix "```" content then
    let lines := split_lines content in
    let content := join_lines (drop_first_last lines) in
    if String.prefix "json" content then drop4 content else content
  else content.

(** [v.strip()]: only [str] has the method. *)
Definition dot_strip (v : pyval) : outcome string :=
  match v with
  | VStr s => Ok (str_strip s)
  | _ => Raise AttributeError
  end.

Definition BASE_URL : string := "https://recruiting.adere.so".

Section Solver.

Variable W : world.

(** The request carries the prompt, of which only the problem text
    varies; the result is the decoded intent, or [None] on any failure. *)
Definition interpret_problem (problem_text : pyval) : M pyval :=
  try_except
    (do response <- session_send W (PostChat problem_text) ;;
     do data <- lift (response_json response) ;;
     do choices <- lift (getitem data "choices") ;;
     do choice <- lift (getitem0 choices) ;;
     do message <- lift (getitem choice "message") ;;
     do raw <- lift (getitem message "content") ;;
     do content <- lift (dot_strip raw) ;;
     let content := strip_fence content in
     lift (json_loads (str_strip content)))
    (fun _ => ret VNone).

(** ** [solve_problem] *)

(** [v.get(k, [])] *)
Definition dot_get_list (v : pyval) (k : string) : outcome pyval :=
  match v with
  | VDict d => Ok (default (VList []) (dict_get d k))
  | _ => Raise AttributeError
  end.

(** The items that [enumerate(v, 1)] walks through. *)
Definition py_iter (v : pyval) : outcome (list pyval) :=
  match v with
  | VList l => Ok l
  | VStr s => Ok (map (fun c => VStr (String c "")) (list_ascii_of_string s))
  | VDict d => Ok (map (fun kv => VStr (fst kv)) d)
  | _ => Raise TypeError
  end.

(** A memoised getter hashes its argument first: lists and dicts cannot
    be hashed.  Names that are neither strings nor unhashable are outside
    the embedding, whose memo tables are keyed by strings. *)
Definition call_getter (getter : string -> M (option entity)) (name : pyval)
  : M (option entity) :=
  match name with
  | VStr s => getter s
  | VList _ | VDict _ => lift (Raise TypeError)
  | _ => lift Unmodelled
  end.

(** [if data:] on what a getter returned. *)
Definition found (data : option entity) : option entity :=
  match data with
  | Some d => if truthy (VDict d) then Some d else None
  | None => None
  end.

(** One of the three loops: [for i, name in enumerate(names, i): ...] with
    [entities[f'<kindname>{i}'] = data] for the names that resolve. *)
Fixpoint bind_names (kindname : string) (getter : string -> M (option entity))
    (i : nat) (names : list pyval) (entities : gmap string entity)
  : M (gmap string entity) :=
  match names with
  | [] => ret entities
  | name :: rest =>
      do data <- call_getter getter name ;;
      bind_names kindname getter (S i) rest
        (match found data with
         | Some d => <[(kindname ++ pretty i)%string := d]> entities
         | None => entities
         end)
  end.

Definition bind_kind (interpretation : pyval) (key kindname : string)
    (getter : string -> M (option entity)) (entities : gmap string entity)
  : M (gmap string entity) :=
  do listed <- lift (dot_get_list interpretation key) ;;
  do names <- lift (py_iter listed) ;;
  bind_names kindname getter 1 names entities.

(** Stage 3, inside [try]: every exception becomes [None]. *)
Definition evaluate (interpretation : pyval) (entities : gmap string entity)
  : M pyval :=
  try_except
    (do operation <- lift (getitem interpretation "operation") ;;
     do result <- lift (py_eval operation entities) ;;
     lift (round10 result))
    (fun _ => ret VNone).

(** Stage 2: the three loops that fill [entities]. *)
Definition bindings (interpretation : pyval) : M (gmap string entity) :=
  do entities <- bind_kind interpretation "characters" "character"
                   (get_star_wars_character W) ∅ ;;
  do entities <- bind_kind interpretation "planets" "planet"
                   (get_star_wars_planet W) entities ;;
  bind_kind interpretation "pokemon" "pokemon" (get_pokemon W) entities.

Definition solve_problem (problem_text : pyval) : M pyval :=
  do interpretation <- interpret_problem problem_text ;;
  if negb (truthy interpretation) then ret VNone
  else
    do entities <- bindings interpretation ;;
    evaluate interpretation entities.

(** ** [run_challenge] *)

Record loop_state := {
  current_problem : pyval;
  problems_solved : nat;
  problems_attempted : nat
}.

Inductive next := Continue | Break.

Definition limit : Q := 175.

(** [time.time() - start_time < 175] *)
Definition in_time (now start_time : Q) : bool :=
  negb (Qle_bool limit (now - start_time)).

(** The body of the [while] loop. *)
Definition attempt (ls : loop_state) : M (next * loop_state) :=
  let attempted := S (problems_attempted ls) in
  do banner <- time_time W ;;
  do text <- lift (getitem (current_problem ls) "problem") ;;
  do solved <- solve_problem text ;;
  let answer := match solved with VNone => VInt 0 | _ => solved end in
  try_except
    (do id <- lift (getitem (current_problem ls) "id") ;;
     do response <- session_send W (PostSolution id answer) ;;
     do result <- lift (response_json response) ;;
     do more <- lift (contains_key result "problem") ;;
     if more : bool then
       ret (Continue, {| current_problem := result;
                         problems_solved := S (problems_solved ls);
                         problems_attempted := attempted |})
     else
       ret (Break, {| current_problem := current_problem ls;
                      problems_solved := problems_solved ls;
                      problems_attempted := attempted |}))
    (fun _ =>
       ret (Break, {| current_problem := current_problem ls;
                      problems_solved := problems_solved ls;
                      problems_attempted := attempted |})).

(** One pass through the [while]: the test at the top, then the body. *)
Definition iteration (start_time : Q) (ls : loop_state) : M (next * loop_state) :=
  do now <- time_time W ;;
  if in_time now start_time then attempt ls else ret (Break, ls).

(** The [while] loop; it has no bound of its own, so the embedding counts
    passes and gives up with [Unmodelled] after [fuel] of them. *)
Fixpoint challenge_loop (fuel : nat) (start_time : Q) (ls : loop_state)
  : M loop_state :=
  match fuel with
  | O => lift Unmodelled
  | S fuel' =>
      do step <- iteration start_time ls ;;
      match fst step with
      | Continue => challenge_loop fuel' start_time (snd step)
      | Break => ret (snd step)
      end
  end.

(** What the closing lines print. *)
Record report := {
  resueltos : nat;
  intentados : nat;
  tiempo : Z;
  velocidad : Q
}.

(** [int(x)] of a float: towards zero. *)
Definition py_int (q : Q) : Z := Z.quot (Qnum q) (Zpos (Qden q)).

(** The whole run: the report that is printed, or [None] when the outer
    handler caught an exception. *)
Definition run_challenge (fuel : nat) : M (option report) :=
  do start_time <- time_time W ;;
  try_except
    (do response <- session_send W (Get (BASE_URL ++ "/challenge/start")) ;;
     do first <- lift (response_json response) ;;
     do final <- challenge_loop fuel start_time
                   {| current_problem := first;
                      problems_solved := 0; problems_attempted := 0 |} ;;
     do now <- time_time W ;;
     let elapsed := py_int (now - start_time) in
     if Z.eqb elapsed 0 then lift (Raise ZeroDivisionError)
     else
       ret (Some {| resueltos := problems_solved final;
                    intentados := problems_attempted final;
                    tiempo := elapsed;
                    velocidad :=
                      Qred (inject_Z (Z.of_nat (problems_solved final))
                            / (inject_Z elapsed / 60)) |}))
    (fun _ => ret None).

End Solver.

(** ** Vocabulary of the statements *)

Inductive kind := Character | Planet | Pokemon.

(** The keys of the dict that the getter of a kind builds. *)
Definition schema (k : kind) : list string :=
  match k with
  | Character => ["name"; "height"; "mass"; "homeworld"]
  | Planet => ["name"; "rotation_period"; "orbital_period"; "diameter";
               "surface_water"; "population"]
  | Pokemon => ["name"; "base_experience"; "height"; "weight"]
  end.

Definition resolve (W : world) (k : kind) : string -> M (option entity) :=
  match k with
  | Character => get_star_wars_character W
  | Planet => get_star_wars_planet W
  | Pokemon => get_pokemon W
  end.

Definition fetch (W : world) (k : kind) : string -> M (option entity) :=
  match k with
  | Character => character_fetch W
  | Planet => planet_fetch W
  | Pokemon => pokemon_fetch W
  end.

Definition table (k : kind) : state -> cache :=
  match k with
  | Character => character_cache
  | Planet => planet_cache
  | Pokemon => pokemon_cache
  end.

Definition store (k : kind) : cache -> state -> state :=
  match k with
  | Character => store_character
  | Planet => store_planet
  | Pokemon => store_pokemon
  end.

#[global] Instance kind_eq_dec : EqDecision kind.
Proof. solve_decision. Defined.

Definition kindname (k : kind) : string :=
  match k with
  | Character => "character"
  | Planet => "planet"
  | Pokemon => "pokemon"
  end.

Definition intent_key (k : kind) : string :=
  match k with
  | Character => "characters"
  | Planet => "planets"
  | Pokemon => "pokemon"
  end.

(** The positional alias of the [i]-th name of a kind. *)
Definition alias (k : kind) (i : nat) : string := kindname k ++ pretty i.

(** A result is [None] or a dict with exactly the keys of the schema. *)
Definition materialized (k : kind) (r : option entity) : Prop :=
  match r with
  | Some e => map fst e = schema k
  | None => True
  end.

Definition cache_ok (k : kind) (c : cache) : Prop :=
  Forall (fun kv => materialized k (snd kv)) c.

(** The memo tables hold results of their own getter only; true of
    [initial] and kept by every getter. *)
Definition state_ok (st : state) : Prop :=
  forall k, cache_ok k (table k st).

(** The nested request for the homeworld fails: the call raises or the
    body is not JSON. *)
Definition nested_fetch_fails (W : world) (n : nat) (url : pyval) : bool :=
  match url with
  | VStr u =>
      match respond W n (Get u) with
      | Fails | Body None => true
      | Body (Some _) => false
      end
  | _ => true
  end.

(** After a resolution that gave [None], the next resolution of the name
    from the state [st1] it left asks the data source again. *)
Definition asks_again (W : world) (k : kind) (name : string) (st : state) : Prop :=
  forall st1, resolve W k name st = (Ok None, st1) ->
    sent (snd (resolve W k name st1)) <> sent st1.

(** The results of resolving [names] one after the other from [st], and
    the state this leaves. *)
Fixpoint resolve_each (W : world) (k : kind) (names : list string) (st : state)
  : list (option entity) * state :=
  match names with
  | [] => ([], st)
  | name :: rest =>
      match resolve W k name st with
      | (Ok r, st') =>
          let '(rs, st'') := resolve_each W k rest st' in (r :: rs, st'')
      | (_, st') => ([], st')
      end
  end.

(** The names an expression refers to. *)
Fixpoint names_in (e : expr) : list string :=
  match e with
  | ELit _ => []
  | EName x => [x]
  | EAttr e _ | ENeg e | EPos e => names_in e
  | EIndex e k => names_in e ++ names_in k
  | EBin _ l r => names_in l ++ names_in r
  end.

(** The state after one more reading of the clock. *)
Definition tick (st : state) : state :=
  {| sent := sent st; ticks := S (ticks st);
     character_cache := character_cache st;
     planet_cache := planet_cache st;
     pokemon_cache := pokemon_cache st |}.

(** The state after the request [r] went out. *)
Definition sending (r : request) (st : state) : state :=
  {| sent := r :: sent st; ticks := ticks st;
     character_cache := character_cache st;
     planet_cache := planet_cache st;
     pokemon_cache := pokemon_cache st |}.

(** A well-formed intent. *)
Definition intent (characters planets pokemon : list string) (operation : string)
  : pyval :=
  VDict [("characters", VList (map VStr characters));
         ("planets", VList (map VStr planets));
         ("pokemon", VList (map VStr pokemon));
         ("operation", VStr operation)].

(** The entities after the loop of one kind: [rs] are the results of the
    getter for the names in order, the first of them at position [i]. *)
Fixpoint bound (k : kind) (i : nat) (rs : list (option entity))
    (entities : gmap string entity) : gmap string entity :=
  match rs with
  | [] => entities
  | r :: rs' =>
      bound k (S i) rs'
        (match found r with
         | Some d => <[alias k i := d]> entities
         | None => entities
         end)
  end.

(** The answers that were submitted, latest first. *)
Definition answers (st : state) : list pyval :=
  omap (fun r => match r with PostSolution _ a => Some a | _ => None end) (sent st).

(** Writing JSON texts: apostrophes stand for double quotes. *)
Definition dq (s : string) : string :=
  string_of_list_ascii
    (map (fun c => if Ascii.eqb c "'" then quote else c) (list_ascii_of_string s)).

(** ** Example worlds

    Concrete data sources, used to run the program on inputs. *)

Definition people_url (name : string) : string :=
  SWAPI_URL ++ "/people/?search=" ++ name.
Definition planets_url (name : string) : string :=
  SWAPI_URL ++ "/planets/?search=" ++ name.
Definition pokemon_url (name : string) : string :=
  POKEAPI_URL ++ "/pokemon/" ++ str_lower name.
Definition start_url : string := BASE_URL ++ "/challenge/start".
Definition tatooine_url : string := "https://swapi.dev/api/planets/1/".

Definition luke : pyval :=
  VDict [("name", VStr "Luke Skywalker"); ("height", VStr "172");
         ("mass", VStr "77"); ("homeworld", VStr tatooine_url)].

Definition luke_entity : entity :=
  [("name", VStr "Luke Skywalker"); ("height", VFloat (FFin 172));
   ("mass", VFloat (FFin 77)); ("homeworld", VStr "Tatooine")].

Definition pikachu : pyval :=
  VDict [("name", VStr "pikachu"); ("base_experience", VInt 112);
         ("height", VInt 4); ("weight", VInt 60)].

Definition pikachu_entity : entity :=
  [("name", VStr "pikachu"); ("base_experience", VFloat (FFin 112));
   ("height", VFloat (FFin 4)); ("weight", VFloat (FFin 60))].

(** A planet whose population is written with a thousands separator. *)
Definition tatooine : pyval :=
  VDict [("name", VStr "Tatooine"); ("rotation_period", VStr "23");
         ("orbital_period", VStr "304"); ("diameter", VStr "10465");
         ("surface_water", VStr "1"); ("population", VStr "200,000")].

Definition search_result (v : pyval) : pyval := VDict [("results", VList [v])].

(** The reply of the language service with [content] as its message. *)
Definition chat (content : string) : pyval :=
  VDict [("choices", VList [VDict [("message", VDict [("content", VStr content)])]])].

Definition problem (id text : string) : pyval :=
  VDict [("id", VStr id); ("problem", VStr text)].

(** The data sources: Luke, his homeworld, Tatooine and Pikachu. *)
Definition sources (url : string) : reply :=
  if String.eqb url (people_url "Luke Skywalker") then Body (Some (search_result luke))
  else if String.eqb url tatooine_url then Body (Some (VDict [("name", VStr "Tatooine")]))
  else if String.eqb url (planets_url "Tatooine") then Body (Some (search_result tatooine))
  else if String.eqb url (pokemon_url "Pikachu") then Body (Some pikachu)
  else if String.eqb url start_url then Body (Some (problem "p1" "Luke trains with Pikachu"))
  else Fails.

(** A world where the language service answers every problem with
    [content]; the challenge service hands out a further problem for a
    submission among the first [open] requests and closes the session
    afterwards. *)
Definition world_of (content : string) (open : nat) : world :=
  {| respond := fun n r =>
       match r with
       | Get url => sources url
       | PostChat _ => Body (Some (chat content))
       | PostSolution _ _ =>
           if Nat.ltb n open
           then Body (Some (problem "next" "Luke trains with Pikachu"))
           else Body (Some (VDict [("message", VStr "finished")]))
       end;
     clock := fun n => (inject_Z (Z.of_nat n) * 10)%Q |}.

Definition scenario1 : string :=
  dq "{'characters': ['Luke Skywalker'], 'planets': [], 'pokemon': ['Pikachu'], 'operation': 'character1.mass * pokemon1.base_experience'}".

(** The data source is down for the first request and back afterwards. *)
Definition recovering_world : world :=
  {| respond := fun n r =>
       match n, r with
       | O, _ => Fails
       | _, Get url => sources url
       | _, _ => Fails
       end;
     clock := fun n => inject_Z (Z.of_nat n) |}.

(** Luke is found but the request for his homeworld fails. *)
Definition homeless_world : world :=
  {| respond := fun n r =>
       match r with
       | Get url =>
           if String.eqb url tatooine_url then Fails else sources url
       | _ => Fails
       end;
     clock := fun n => inject_Z (Z.of_nat n) |}.

(** The language service is down; the challenge service hands out one
    more problem and then closes the session. *)
Definition mute_world : world :=
  {| respond := fun n r =>
       match r with
       | Get url => sources url
       | PostChat _ => Fails
       | PostSolution id _ =>
           match id with
           | VStr "p1" => Body (Some (problem "p2" "Another problem"))
           | _ => Body (Some (VDict [("message", VStr "finished")]))
           end
       end;
     clock := fun n => (inject_Z (Z.of_nat n) * 10)%Q |}.

(** A state in which eighteen readings of the clock have been taken. *)
Definition late : state :=
  {| sent := []; ticks := 18;
     character_cache := []; planet_cache := []; pokemon_cache := [] |}.

(** ** Vocabulary of the further properties *)

(** The URL a search for [name] goes to. *)
Definition search_url (k : kind) (name : string) : string :=
  match k with
  | Character => SWAPI_URL ++ "/people/?search=" ++ name
  | Planet => SWAPI_URL ++ "/planets/?search=" ++ name
  | Pokemon => POKEAPI_URL ++ "/pokemon/" ++ str_lower name
  end.

(** A reply to a search that holds no match: the call raises, the body
    is not JSON, it has no [results], or [results] is empty (falsy). *)
Definition no_match (r : reply) : bool :=
  match r with
  | Fails | Body None => true
  | Body (Some data) =>
      match getitem data "results" with
      | Ok results => negb (truthy results)
      | _ => true
      end
  end.

Definition is_get (r : request) : Prop :=
  match r with Get _ => True | _ => False end.

Definition is_query (r : request) : Prop :=
  match r with PostSolution _ _ => False | _ => True end.

(** From every state, [m] sends at most [n] requests, all of them in
    [P], and changes nothing else but the memo tables. *)
Definition emits {A} (P : request -> Prop) (n : nat) (m : M A) : Prop :=
  forall st, exists new,
    sent (snd (m st)) = new ++ sent st /\ length new <= n /\ Forall P new
    /\ ticks (snd (m st)) = ticks st.

(** The same without a bound on the number. *)
Definition only {A} (P : request -> Prop) (m : M A) : Prop :=
  forall st, exists new,
    sent (snd (m st)) = new ++ sent st /\ Forall P new
    /\ ticks (snd (m st)) = ticks st.

(** The number of requests a resolution may need. *)
Definition requests_of (k : kind) : nat :=
  match k with Character => 2 | _ => 1 end.

(** A text without a line break. *)
Definition one_line (s : string) : bool :=
  forallb (fun c => negb (Ascii.eqb c newline)) (list_ascii_of_string s).

(** What [interpret_problem] makes of the result of [json.loads]. *)
Definition decoded (o : outcome pyval) : outcome pyval :=
  match o with
  | Ok v => Ok v
  | Raise _ => Ok VNone
  | Unmodelled => Unmodelled
  end.

(** [None] or a number. *)
Definition number_or_none (v : pyval) : Prop :=
  match v with
  | VNone | VInt _ | VFloat _ => True
  | _ => False
  end.



(** The first scenario, wrapped in a fenced block. *)
Definition fenced_scenario1 : string :=
  "```json" ++ String newline (scenario1 ++ String newline "```").

(** A fenced reply written on one line. *)
Definition one_line_reply : string := "```json {} ```".

(** The counters and the submissions between two points of a run:
    [s] problems counted as solved, [n] answers submitted, [a] problems
    attempted, with [s <= n <= a <= s + 1]. *)
Definition accounted (ls ls' : loop_state) (st st' : state) : Prop :=
  exists s n a,
    problems_solved ls' = problems_solved ls + s
    /\ length (answers st') = length (answers st) + n
    /\ problems_attempted ls' = problems_attempted ls + a
    /\ s <= n /\ n <= a /\ a <= s + 1.


(** A planet of which nothing is known but the name. *)
Definition unknown_planet : pyval :=
  VDict [("name", VStr "Stewjon"); ("rotation_period", VStr "unknown");
         ("orbital_period", VStr "unknown"); ("diameter", VStr "unknown");
         ("surface_water", VStr "unknown"); ("population", VStr "unknown")].

(** A pokemon without base experience. *)
Definition missingno : pyval :=
  VDict [("name", VStr "missingno"); ("base_experience", VNone);
         ("height", VInt 10); ("weight", VInt 100)].

Definition odd_world : world :=
  {| respond := fun n r =>
       match r with
       | Get url =>
           if String.eqb url (planets_url "Stewjon")
           then Body (Some (search_result unknown_planet))
           else if String.eqb url (pokemon_url "MissingNo") then Body (Some missingno)
           else sources url
       | _ => Fails
       end;
     clock := fun n => inject_Z (Z.of_nat n) |}.

(** * Properties *)

(** ** Reasoning about statements

    [safe Inv m Q]: from a state in [Inv], the statement [m] ends in a value
    satisfying [Q] or in an exception, never in [Unmodelled], and the
    state it leaves is in [Inv].  [total] also rules out the exception. *)

Definition safe {A} (Inv : state -> Prop) (m : M A) (Q : A -> Prop) : Prop :=
  forall st, Inv st ->
    match m st with
    | (Ok a, st') => Inv st' /\ Q a
    | (Raise _, st') => Inv st'
    | (Unmodelled, _) => False
    end.

Definition total {A} (Inv : state -> Prop) (m : M A) (Q : A -> Prop) : Prop :=
  forall st, Inv st -> exists a st', m st = (Ok a, st') /\ Inv st' /\ Q a.

(** An outcome that is not [Unmodelled]. *)
Definition settled {A} (o : outcome A) (Q : A -> Prop) : Prop :=
  match o with
  | Ok a => Q a
  | Raise _ => True
  | Unmodelled => False
  end.

(** Invariants that do not look at the requests sent. *)
Definition ignores_sent (Inv : state -> Prop) : Prop :=
  forall st r, Inv st ->
    Inv {| sent := r; ticks := ticks st;
         character_cache := character_cache st;
         planet_cache := planet_cache st;
         pokemon_cache := pokemon_cache st |}.

Lemma safe_ret {A} Inv (a : A) (Q : A -> Prop) : Q a -> safe Inv (ret a) Q.
Proof. intros HQ st HI. cbn. auto. Qed.

Lemma safe_bind {A B} Inv (m : M A) (k : A -> M B) P Q :
  safe Inv m P -> (forall a, P a -> safe Inv (k a) Q) -> safe Inv (bind m k) Q.
Proof.
  intros Hm Hk st HI. unfold bind. specialize (Hm st HI).
  destruct (m st) as [[a | e |] st']; try done.
  destruct Hm as [HI' HP]. exact (Hk a HP st' HI').
Qed.

Lemma safe_lift {A} Inv (o : outcome A) Q : settled o Q -> safe Inv (lift o) Q.
Proof. intros Ho st HI. unfold lift. destruct o; cbn in *; auto. Qed.

Lemma safe_weaken {A} Inv (m : M A) (P Q : A -> Prop) :
  safe Inv m P -> (forall a, P a -> Q a) -> safe Inv m Q.
Proof.
  intros Hm HPQ st HI. specialize (Hm st HI).
  destruct (m st) as [[a | e |] st']; try done. destruct Hm; auto.
Qed.

Lemma safe_if {A} Inv (b : bool) (m1 m2 : M A) Q :
  safe Inv m1 Q -> safe Inv m2 Q -> safe Inv (if b then m1 else m2) Q.
Proof. destruct b; auto. Qed.

Lemma total_try {A} Inv (body : M A) (h : exn -> M A) Q :
  safe Inv body Q -> (forall e, total Inv (h e) Q) -> total Inv (try_except body h) Q.
Proof.
  intros Hb Hh st HI. unfold try_except. specialize (Hb st HI).
  destruct (body st) as [[a | e |] st']; try done.
  - destruct Hb. eauto.
  - exact (Hh e st' Hb).
Qed.

Lemma total_ret {A} Inv (a : A) (Q : A -> Prop) : Q a -> total Inv (ret a) Q.
Proof. intros HQ st HI. exists a, st. auto. Qed.

Lemma safe_send W Inv r :
  ignores_sent Inv -> safe Inv (session_send W r) (fun _ => True).
Proof.
  intros Hs st HI. unfold session_send.
  destruct (respond W (length (sent st)) r); cbn; auto.
Qed.

Lemma safe_get_val W Inv url :
  ignores_sent Inv -> safe Inv (session_get_val W url) (fun _ => True).
Proof.
  intros Hs. destruct url; try (apply safe_lift; exact I).
  all: try (intros st HI; cbn; auto; fail).
  apply safe_send; auto.
Qed.

(** The pure steps are settled. *)
Lemma settled_bind {A B} (o : outcome A) (k : A -> outcome B) P Q :
  settled o P -> (forall a, P a -> settled (k a) Q) -> settled (obind o k) Q.
Proof. destruct o; cbn; auto. Qed.

Lemma settled_any {A} (o : outcome A) (Q : A -> Prop) :
  settled o Q -> settled o (fun _ => True).
Proof. destruct o; cbn; auto. Qed.

Lemma settled_getitem v k : settled (getitem v k) (fun _ => True).
Proof. destruct v; cbn; auto. destruct (dict_get d k); cbn; auto. Qed.

Lemma settled_getitem0 v : settled (getitem0 v) (fun _ => True).
Proof. destruct v as [| | | | [|] | [|] |]; cbn; auto. Qed.

Lemma settled_dot_get v k : settled (dot_get v k) (fun _ => True).
Proof. destruct v; cbn; auto. Qed.

Lemma settled_response_json r : settled (response_json r) (fun _ => True).
Proof. destruct r; cbn; auto. Qed.

Lemma settled_py_float v : settled (py_float v) (fun _ => True).
Proof. destruct v; cbn; auto. destruct (float_of_string s); cbn; auto. Qed.

Lemma settled_replace v : settled (dot_replace_commas v) (fun _ => True).
Proof. destruct v; cbn; auto. Qed.

Lemma settled_float_of_item d k : settled (float_of_item d k) (fun _ => True).
Proof.
  unfold float_of_item.
  eapply settled_bind; [apply settled_getitem | intros x _].
  eapply settled_bind; [apply settled_py_float | intros f _]. exact I.
Qed.

Lemma settled_float_unless_unknown d k :
  settled (float_unless_unknown d k) (fun _ => True).
Proof.
  unfold float_unless_unknown.
  eapply settled_bind; [apply settled_getitem | intros c _].
  destruct (ne_str c "unknown"); [apply settled_float_of_item | exact I].
Qed.

Lemma settled_float_commas d k :
  settled (float_commas_unless_unknown d k) (fun _ => True).
Proof.
  unfold float_commas_unless_unknown.
  eapply settled_bind; [apply settled_getitem | intros c _].
  destruct (ne_str c "unknown"); [| exact I].
  eapply settled_bind; [apply settled_getitem | intros x _].
  eapply settled_bind; [apply settled_replace | intros y _].
  eapply settled_bind; [apply settled_py_float | intros f _]. exact I.
Qed.

Lemma settled_float_if_truthy d k :
  settled (float_if_truthy d k) (fun _ => True).
Proof.
  unfold float_if_truthy.
  eapply settled_bind; [apply settled_getitem | intros c _].
  destruct (truthy c); [apply settled_float_of_item | exact I].
Qed.

Create HintDb settled.
#[local] Hint Resolve settled_getitem settled_getitem0 settled_dot_get
  settled_response_json settled_float_of_item settled_float_unless_unknown
  settled_float_commas settled_float_if_truthy : settled.

(** One step of a sequence: a pure step, a request, or the last [ret]. *)
Ltac step_safe :=
  lazymatch goal with
  | |- safe _ (bind (lift _) _) _ =>
      eapply safe_bind; [apply safe_lift; eauto with settled | intros ? _]
  | |- safe _ (bind (session_send _ _) _) _ =>
      eapply safe_bind; [apply safe_send; assumption | intros ? _]
  | |- safe _ (bind (session_get_val _ _) _) _ =>
      eapply safe_bind; [apply safe_get_val; assumption | intros ? _]
  | |- safe _ (if _ then _ else _) _ => apply safe_if
  | |- safe _ (ret _) _ => apply safe_ret
  | |- safe _ (lift _) _ => apply safe_lift; eauto with settled
  end.

Lemma fetch_total W Inv k name :
  ignores_sent Inv -> total Inv (fetch W k name) (materialized k).
Proof.
  intros Hs. destruct k; cbn [fetch].
  - apply total_try; [| intros; apply total_ret; exact I].
    unfold character_fetch. repeat step_safe; try reflexivity; try exact I.
    eapply safe_bind.
    { apply safe_if with (Q := fun _ => True).
      - repeat step_safe. 
      - apply safe_ret; exact I. }
    intros ? _. repeat step_safe. reflexivity.
  - apply total_try; [| intros; apply total_ret; exact I].
    unfold planet_fetch. repeat step_safe; try reflexivity; exact I.
  - apply total_try; [| intros; apply total_ret; exact I].
    unfold pokemon_fetch. repeat step_safe; reflexivity.
Qed.

(** ** The memo tables *)

Lemma resolve_unfold W k :
  resolve W k = lru_cache 128 (table k) (store k) (fetch W k).
Proof. destruct k; reflexivity. Qed.

Lemma table_store k k' c st :
  table k (store k' c st) = if decide (k = k') then c else table k st.
Proof. destruct k, k'; reflexivity. Qed.

Lemma sent_store k c st : sent (store k c st) = sent st.
Proof. destruct k; reflexivity. Qed.

Lemma cache_find_ok k c name v :
  cache_ok k c -> cache_find c name = Some v -> materialized k v.
Proof.
  unfold cache_ok. induction 1 as [| [k' v'] c Hv Hc IH]; cbn; [done |].
  destruct (String.eqb k' name); [intros [= <-]; exact Hv | exact IH].
Qed.

Lemma cache_remove_ok k c name : cache_ok k c -> cache_ok k (cache_remove c name).
Proof.
  unfold cache_ok. induction 1 as [| [k' v'] c Hv Hc IH]; cbn; [constructor |].
  destruct (String.eqb k' name); [exact IH | constructor; assumption].
Qed.

Lemma state_ok_store k c st :
  state_ok st -> cache_ok k c -> state_ok (store k c st).
Proof.
  intros Hst Hc k'. rewrite table_store. case_decide; [subst; exact Hc | apply Hst].
Qed.

Lemma state_ok_ignores_sent : ignores_sent state_ok.
Proof. intros st r Hst k. specialize (Hst k). destruct k; exact Hst. Qed.

Lemma state_ok_initial : state_ok initial.
Proof. intros k. destruct k; constructor. Qed.

Lemma resolve_total W k name :
  total state_ok (resolve W k name) (materialized k).
Proof.
  intros st Hst. rewrite resolve_unfold. unfold lru_cache.
  destruct (cache_find (table k st) name) as [v |] eqn:Hfind.
  - eexists _, _. split; [reflexivity |].
    pose proof (cache_find_ok _ _ _ _ (Hst k) Hfind) as Hv. split; [| exact Hv].
    apply state_ok_store; [exact Hst |].
    constructor; [exact Hv | apply cache_remove_ok, Hst].
  - destruct (fetch_total W state_ok k name state_ok_ignores_sent st Hst)
      as (v & st' & -> & Hst' & Hv).
    destruct (cache_find (table k st') name).
    + eexists _, _. eauto.
    + eexists _, _. split; [reflexivity |]. split; [| exact Hv].
      apply state_ok_store; [exact Hst' |].
      apply Forall_take. constructor; [exact Hv | apply Hst'].
Qed.

(** The fetch behind a getter leaves the three tables as they are. *)
Lemma fetch_keeps_tables W k name st k' :
  table k' (snd (fetch W k name st)) = table k' st.
Proof.
  assert (Hs : ignores_sent (fun s => table k' s = table k' st)).
  { intros s r Hs. destruct k'; exact Hs. }
  destruct (fetch_total W _ k name Hs st eq_refl) as (v & st' & -> & Hst' & _).
  exact Hst'.
Qed.

Lemma fetch_is_ok W k name st : exists v, fst (fetch W k name st) = Ok v.
Proof.
  destruct (fetch_total W (fun _ => True) k name (fun _ _ _ => I) st I)
    as (v & st' & -> & _). eauto.
Qed.

Lemma cache_find_head name (v : option entity) c n :
  cache_find (take (S n) ((name, v) :: c)) name = Some v.
Proof. cbn. rewrite String.eqb_refl. reflexivity. Qed.

(** A result that a getter gave is in the table afterwards. *)
Lemma resolve_stores W k name st v st1 :
  resolve W k name st = (Ok v, st1) -> cache_find (table k st1) name = Some v.
Proof.
  rewrite resolve_unfold. unfold lru_cache.
  destruct (cache_find (table k st) name) as [v0 |] eqn:Hfind.
  - intros [= <- <-]. rewrite table_store. rewrite decide_True by done.
    cbn. rewrite String.eqb_refl. reflexivity.
  - pose proof (fetch_keeps_tables W k name st k) as Hkeep.
    destruct (fetch W k name st) as [[v' | e |] st'] eqn:Hf; cbn in Hkeep.
    + rewrite Hkeep, Hfind. intros [= <- <-].
      rewrite table_store. rewrite decide_True by done. apply cache_find_head.
    + destruct (fetch_is_ok W k name st) as [? H]. rewrite Hf in H. discriminate.
    + destruct (fetch_is_ok W k name st) as [? H]. rewrite Hf in H. discriminate.
Qed.

(** A name that is in the table is answered from it, without a request. *)
Lemma resolve_hit W k name st v :
  cache_find (table k st) name = Some v ->
  exists st', resolve W k name st = (Ok v, st') /\ sent st' = sent st.
Proof.
  intros Hfind. rewrite resolve_unfold. unfold lru_cache. rewrite Hfind.
  eexists. split; [reflexivity | apply sent_store].
Qed.

Lemma character_fetch_homeworld_fails W name st data results char url :
  respond W (length (sent st)) (Get (SWAPI_URL ++ "/people/?search=" ++ name))
    = Body (Some data) ->
  getitem data "results" = Ok results ->
  truthy results = true ->
  getitem0 results = Ok char ->
  dot_get char "homeworld" = Ok url ->
  truthy url = true ->
  nested_fetch_fails W (S (length (sent st))) url = true ->
  fst (character_fetch W name st) = Ok None.
Proof.
  intros Hresp Hres Htr Hchar Hurl Htu Hfail.
  unfold character_fetch, try_except, bind at 1.
  unfold session_send at 1. rewrite Hresp.
  unfold bind at 1, lift at 1. cbn [response_json].
  unfold bind at 1, lift at 1. rewrite Hres, Htr.
  unfold bind at 1, lift at 1. rewrite Hchar.
  unfold bind at 1, lift at 1. rewrite Hurl, Htu.
  unfold bind at 1. unfold bind at 1.
  unfold nested_fetch_fails in Hfail.
  destruct url; cbn [session_get_val lift]; try reflexivity.
  unfold session_send. cbn [sent length].
  destruct (respond W (S (length (sent st))) (Get s)) as [| [v |]];
    try discriminate; reflexivity.
Qed.

(** ** The entity store *)

(** C6. For every kind and name, and from every state whose memo tables
    are well formed, resolution returns: it does not raise and it does not
    leave the embedding.  What it returns is [None] or a dict with exactly
    the keys of the kind's schema, and the tables stay well formed. *)
Theorem resolve_materialized_or_not_found W k name st :
  state_ok st ->
  exists r st',
    resolve W k name st = (Ok r, st') /\ state_ok st' /\ materialized k r.
Proof. intros Hst. exact (resolve_total W k name st Hst). Qed.

Lemma resolve_materialized_or_not_found_witness :
  state_ok initial /\
  exists r st',
    resolve (world_of scenario1 0) Character "Luke Skywalker" initial = (Ok r, st')
    /\ state_ok st' /\ materialized Character r.
Proof.
  split; [exact state_ok_initial |].
  apply (resolve_materialized_or_not_found (world_of scenario1 0) Character
           "Luke Skywalker" initial).
  exact state_ok_initial.
Defined.

(** C10. When the record of a character is found and carries a homeworld
    reference, and the nested request for the homeworld raises or returns
    a body that is not JSON, the resolution of the character is [None]. *)
Theorem homeworld_failure_is_not_found W name st data results char url :
  cache_find (character_cache st) name = None ->
  respond W (length (sent st)) (Get (SWAPI_URL ++ "/people/?search=" ++ name))
    = Body (Some data) ->
  getitem data "results" = Ok results ->
  truthy results = true ->
  getitem0 results = Ok char ->
  dot_get char "homeworld" = Ok url ->
  truthy url = true ->
  nested_fetch_fails W (S (length (sent st))) url = true ->
  fst (get_star_wars_character W name st) = Ok None.
Proof.
  intros Hmiss Hresp Hres Htr Hchar Hurl Htu Hfail.
  pose proof (character_fetch_homeworld_fails W name st data results char url
                Hresp Hres Htr Hchar Hurl Htu Hfail) as Hfetch.
  unfold get_star_wars_character, lru_cache. rewrite Hmiss.
  destruct (character_fetch W name st) as [[v | e |] st'];
    cbn in Hfetch; try discriminate.
  injection Hfetch as ->.
  destruct (cache_find (character_cache st') name); reflexivity.
Qed.

Lemma homeworld_failure_is_not_found_witness :
  fst (get_star_wars_character homeless_world "Luke Skywalker" initial) = Ok None.
Proof.
  apply (homeworld_failure_is_not_found homeless_world "Luke Skywalker" initial
           (search_result luke) (VList [luke]) luke (VStr tatooine_url));
    reflexivity.
Defined.

(** The attributes of the character were there: with the homeworld
    request answered, the same record resolves. *)
Example luke_resolves :
  fst (get_star_wars_character (world_of scenario1 0) "Luke Skywalker" initial)
  = Ok (Some luke_entity).
Proof. vm_compute. reflexivity. Qed.

(** C2, as stated, fails: the data source is down for the first request
    and back afterwards; the first resolution of Luke gives [None], and
    the second one gives [None] again without asking, although a fetch
    would now find him. *)
Lemma not_found_is_memoised :
  ~ asks_again recovering_world Character "Luke Skywalker" initial
  /\ fst (resolve recovering_world Character "Luke Skywalker" initial) = Ok None
  /\ fst (fetch recovering_world Character "Luke Skywalker"
            (snd (resolve recovering_world Character "Luke Skywalker" initial)))
     = Ok (Some luke_entity).
Proof.
  split; [| split; vm_compute; reflexivity].
  intros H.
  specialize (H (snd (resolve recovering_world Character "Luke Skywalker" initial))).
  apply H; vm_compute; reflexivity.
Qed.

(** C2, amended. A resolution that gives [None] is memoised like any
    other result: the name is in the table afterwards, and as long as it
    is there the getter answers [None] from the table without a request. *)
Theorem not_found_stays_not_found W k name st st1 :
  resolve W k name st = (Ok None, st1) ->
  cache_find (table k st1) name = Some None /\
  forall st2, cache_find (table k st2) name = Some None ->
    exists st3, resolve W k name st2 = (Ok None, st3) /\ sent st3 = sent st2.
Proof.
  intros Hres. split.
  - exact (resolve_stores W k name st None st1 Hres).
  - intros st2 Hfind. exact (resolve_hit W k name st2 None Hfind).
Qed.

Lemma not_found_stays_not_found_witness :
  cache_find
    (table Character
       (snd (resolve recovering_world Character "Luke Skywalker" initial)))
    "Luke Skywalker" = Some None /\
  forall st2, cache_find (table Character st2) "Luke Skywalker" = Some None ->
    exists st3,
      resolve recovering_world Character "Luke Skywalker" st2 = (Ok None, st3)
      /\ sent st3 = sent st2.
Proof.
  apply (not_found_stays_not_found recovering_world Character "Luke Skywalker"
           initial).
  vm_compute. reflexivity.
Defined.

(** A successful resolution is memoised in the same way. *)
Lemma resolve_twice W k name st v st1 :
  resolve W k name st = (Ok v, st1) ->
  exists st2, resolve W k name st1 = (Ok v, st2) /\ sent st2 = sent st1.
Proof.
  intros Hres. apply resolve_hit. exact (resolve_stores W k name st v st1 Hres).
Qed.

(** ** Normalisation of numeric fields *)

(** Checks of [float] on the spellings that matter here. *)

Example float_plain : float_of_string "1000" = Some (FFin 1000).
Proof. reflexivity. Qed.
Example float_fraction : float_of_string " -12.50 " = Some (FFin (-25 # 2)).
Proof. reflexivity. Qed.
Example float_exponent : float_of_string "1_0.5e-1" = Some (FFin (21 # 20)).
Proof. reflexivity. Qed.
Example float_comma : float_of_string "1,000" = None.
Proof. reflexivity. Qed.
Example float_unknown : float_of_string "unknown" = None.
Proof. reflexivity. Qed.
Example float_inf : float_of_string "-Infinity" = Some (FInf true).
Proof. reflexivity. Qed.
Example remove_commas_ex : remove_commas "1,358" = "1358".
Proof. reflexivity. Qed.

Lemma unknown_is_zero d k :
  getitem d k = Ok (VStr "unknown") -> float_unless_unknown d k = Ok (VInt 0).
Proof. intros H. unfold float_unless_unknown. rewrite H. reflexivity. Qed.

Lemma unknown_mass_is_zero d :
  getitem d "mass" = Ok (VStr "unknown") ->
  float_commas_unless_unknown d "mass" = Ok (VInt 0).
Proof. intros H. unfold float_commas_unless_unknown. rewrite H. reflexivity. Qed.

Example mass_with_comma :
  float_commas_unless_unknown (VDict [("mass", VStr "1,358")]) "mass"
  = Ok (VFloat (FFin 1358)).
Proof. reflexivity. Qed.

Example height_with_comma :
  float_unless_unknown (VDict [("height", VStr "1,000")]) "height"
  = Raise ValueError.
Proof. reflexivity. Qed.

(** C3, at the failing input. Only the mass of a character has its commas
    removed.  A planet whose population is "200,000" does not get the
    population 200000.0: [float] raises, the handler of the getter catches
    it, and the planet resolves to [None], which is memoised. *)
Theorem comma_grouped_population_is_not_found :
  float_of_string "200,000" = None /\
  get_star_wars_planet (world_of scenario1 0) "Tatooine" initial
  = (Ok None,
     {| sent := [Get (planets_url "Tatooine")]; ticks := 0;
        character_cache := []; planet_cache := [("Tatooine", None)];
        pokemon_cache := [] |}).
Proof. split; vm_compute; reflexivity. Qed.

(** ** The evaluator *)

Lemma eval_escape_general (ns : gmap string entity) (attrs : entity) :
  ns !! "character1" = Some attrs ->
  dict_get attrs "__init__" = None ->
  py_eval (VStr "character1.__init__.__globals__['session']") ns
  = Ok (ModuleGlobal "session").
Proof.
  intros Hns Hattr.
  change (py_eval (VStr "character1.__init__.__globals__['session']") ns)
    with (eval_expr ns
            (EIndex (EAttr (EAttr (EName "character1") "__init__") "__globals__")
               (ELit (VStr "session")))).
  simpl eval_expr. unfold lookup_name. rewrite Hns.
  simpl. rewrite Hattr. reflexivity.
Qed.

(** C1, at the failing input. With Luke bound to [character1], the
    operation [character1.__init__.__globals__['session']] evaluates to the
    HTTP session of the module, an object outside the bound entities, and
    [character1.__init__] to a callable: attribute access is not limited
    to the attributes of the schema.  In the third part the operation
    arrives through the language service, the key written with double
    quotes; [round] then rejects the object, so [solve_problem] returns
    [None]. *)
Theorem eval_reaches_module_globals :
  py_eval (VStr "character1.__init__.__globals__['session']")
    {["character1" := luke_entity]}
  = Ok (ModuleGlobal "session")
  /\ py_eval (VStr "character1.__init__") {["character1" := luke_entity]}
     = Ok (InitMethod luke_entity)
  /\ fst (solve_problem
            (world_of (dq "{'characters': ['Luke Skywalker'], 'operation': 'character1.__init__.__globals__[\'session\']'}") 0)
            (VStr "Luke") initial)
     = Ok VNone.
Proof.
  split; [| split].
  - apply (eval_escape_general _ luke_entity); [apply lookup_singleton_eq | reflexivity].
  - change (py_eval (VStr "character1.__init__") {["character1" := luke_entity]})
      with (eval_expr {["character1" := luke_entity]}
              (EAttr (EName "character1") "__init__")).
    simpl eval_expr. unfold lookup_name. rewrite lookup_singleton_eq. reflexivity.
  - vm_compute. reflexivity.
Qed.

(** ** The solver *)

(** C4, at the failing input. The language service answers with the JSON
    text [[1]]: a list, not an object.  [interpret_problem] returns the
    list, [solve_problem] calls [.get] on it outside any [try], and the
    [AttributeError] leaves [solve_problem]; in the challenge loop it
    ends the whole run in the outer handler before anything is submitted.
    The same happens with [TypeError] for an intent whose list of names is
    a number. *)
Theorem solve_problem_raises :
  fst (solve_problem (world_of "[1]" 0) (VStr "Luke trains with Pikachu") initial)
  = Raise AttributeError
  /\ fst (solve_problem
            (world_of (dq "{'characters': 5, 'operation': '1'}") 0)
            (VStr "Luke trains with Pikachu") initial)
     = Raise TypeError
  /\ fst (run_challenge (world_of "[1]" 0) 3 initial) = Ok None
  /\ answers (snd (run_challenge (world_of "[1]" 0) 3 initial)) = [].
Proof. repeat split; vm_compute; reflexivity. Qed.

(** The other stages do turn their failures into [None]. *)
Example translation_failure_is_none :
  fst (solve_problem mute_world (VStr "Luke trains with Pikachu") initial) = Ok VNone.
Proof. vm_compute. reflexivity. Qed.

Example missing_operation_is_none :
  fst (solve_problem (world_of (dq "{'characters': ['Luke Skywalker']}") 0)
         (VStr "Luke") initial) = Ok VNone.
Proof. vm_compute. reflexivity. Qed.

Example scenario1_result :
  fst (solve_problem (world_of scenario1 0) (VStr "Luke trains with Pikachu") initial)
  = Ok (VFloat (FFin 8624)).
Proof. vm_compute. reflexivity. Qed.

(** ** The challenge loop *)

(** C5, at the failing input. With the language service down every
    answer is the substitute 0, yet the report says one problem solved:
    the counter follows the responses that carry a next problem.  And when
    the one answer of a run is computed (8624) but the response closes the
    session, the report says none solved. *)
Theorem solved_counts_next_problems :
  fst (run_challenge mute_world 5 initial)
  = Ok (Some {| resueltos := 1; intentados := 2; tiempo := 50;
                velocidad := 6 # 5 |})
  /\ answers (snd (run_challenge mute_world 5 initial)) = [VInt 0; VInt 0]
  /\ fst (run_challenge (world_of scenario1 0) 5 initial)
     = Ok (Some {| resueltos := 0; intentados := 1; tiempo := 30;
                   velocidad := 0 |})
  /\ answers (snd (run_challenge (world_of scenario1 0) 5 initial))
     = [VFloat (FFin 8624)].
Proof. repeat split; vm_compute; reflexivity. Qed.

Lemma time_time_eq W st : time_time W st = (Ok (clock W (ticks st)), tick st).
Proof. reflexivity. Qed.

Lemma in_time_false now start : (limit <= now - start)%Q -> in_time now start = false.
Proof.
  intros H. unfold in_time. apply Qle_bool_iff in H. rewrite H. reflexivity.
Qed.

Lemma in_time_true now start : in_time now start = true -> (now - start < limit)%Q.
Proof.
  unfold in_time. intros H. apply Qnot_le_lt. intros Hle.
  apply Qle_bool_iff in Hle. rewrite Hle in H. discriminate.
Qed.

Lemma iteration_late W start ls st :
  (limit <= clock W (ticks st) - start)%Q ->
  iteration W start ls st = (Ok (Break, ls), tick st).
Proof.
  intros H. unfold iteration, bind. rewrite time_time_eq.
  rewrite (in_time_false _ _ H). reflexivity.
Qed.

(** A pass that does more than read the clock started in time. *)
Lemma iteration_started_in_time W start ls st :
  iteration W start ls st <> (Ok (Break, ls), tick st) ->
  (clock W (ticks st) - start < limit)%Q.
Proof.
  intros H. apply in_time_true.
  destruct (in_time (clock W (ticks st)) start) eqn:Hin; [reflexivity |].
  exfalso. apply H. unfold iteration, bind. rewrite time_time_eq, Hin. reflexivity.
Qed.

(** C8. The pass through the loop starts with one reading of the clock;
    when 175 seconds or more have gone by since the start, the pass ends
    the loop at once, whatever the problem at hand: no request is sent and
    the counters and the state change by that one reading only. *)
Theorem no_new_problem_after_limit W fuel start ls st :
  (limit <= clock W (ticks st) - start)%Q ->
  iteration W start ls st = (Ok (Break, ls), tick st)
  /\ challenge_loop W (S fuel) start ls st = (Ok ls, tick st)
  /\ sent (tick st) = sent st.
Proof.
  intros H. pose proof (iteration_late W start ls st H) as Hit.
  split; [exact Hit |]. split; [| reflexivity].
  cbn [challenge_loop]. unfold bind at 1. rewrite Hit. reflexivity.
Qed.

Lemma no_new_problem_after_limit_witness :
  iteration mute_world 0
    {| current_problem := problem "p1" "Luke trains with Pikachu";
       problems_solved := 3; problems_attempted := 4 |} late
  = (Ok (Break, {| current_problem := problem "p1" "Luke trains with Pikachu";
                   problems_solved := 3; problems_attempted := 4 |}), tick late)
  /\ challenge_loop mute_world 1 0
       {| current_problem := problem "p1" "Luke trains with Pikachu";
          problems_solved := 3; problems_attempted := 4 |} late
     = (Ok {| current_problem := problem "p1" "Luke trains with Pikachu";
              problems_solved := 3; problems_attempted := 4 |}, tick late)
  /\ sent (tick late) = sent late.
Proof.
  apply (no_new_problem_after_limit mute_world 0 0
           {| current_problem := problem "p1" "Luke trains with Pikachu";
              problems_solved := 3; problems_attempted := 4 |} late).
  vm_compute. discriminate.
Defined.

Lemma session_send_eq W r st :
  session_send W r st =
  (match respond W (length (sent st)) r with
   | Fails => Raise TransportError
   | Body b => Ok b
   end, sending r st).
Proof. unfold session_send. destruct (respond W (length (sent st)) r); reflexivity. Qed.

(** The body of the loop when solving gave [None]. *)
Lemma attempt_after_failure W ls st text id st3 :
  getitem (current_problem ls) "problem" = Ok text ->
  getitem (current_problem ls) "id" = Ok id ->
  solve_problem W text (tick st) = (Ok VNone, st3) ->
  attempt W ls st =
  (match respond W (length (sent st3)) (PostSolution id (VInt 0)) with
   | Body (Some result) =>
       match contains_key result "problem" with
       | Ok true =>
           Ok (Continue, {| current_problem := result;
                            problems_solved := S (problems_solved ls);
                            problems_attempted := S (problems_attempted ls) |})
       | _ =>
           Ok (Break, {| current_problem := current_problem ls;
                         problems_solved := problems_solved ls;
                         problems_attempted := S (problems_attempted ls) |})
       end
   | _ =>
       Ok (Break, {| current_problem := current_problem ls;
                     problems_solved := problems_solved ls;
                     problems_attempted := S (problems_attempted ls) |})
   end, sending (PostSolution id (VInt 0)) st3).
Proof.
  intros Htext Hid Hsolve.
  unfold attempt. unfold bind at 1. rewrite time_time_eq.
  unfold bind at 1, lift at 1. rewrite Htext.
  unfold bind at 1. rewrite Hsolve.
  unfold try_except. unfold bind at 1, lift at 1. rewrite Hid.
  unfold bind at 1. rewrite session_send_eq.
  destruct (respond W (length (sent st3)) (PostSolution id (VInt 0)))
    as [| [result |]]; try reflexivity.
  unfold bind at 1, lift at 1. cbn [response_json].
  unfold bind at 1, lift at 1.
  destruct (contains_key result "problem") as [[|] | e |] eqn:Hc; try reflexivity.
  exfalso. destruct result; cbn in Hc; discriminate.
Qed.

(** C7. In a pass of the loop that starts in time on a problem with a
    text and an id, if solving gives [None] then the answer 0 is
    submitted for that id: the submission is the next request sent.  If
    the response is JSON that contains a next problem, the loop goes on
    with that problem; otherwise the loop ends. *)
Theorem failed_solve_submits_zero W fuel start ls st text id st3 :
  in_time (clock W (ticks st)) start = true ->
  getitem (current_problem ls) "problem" = Ok text ->
  getitem (current_problem ls) "id" = Ok id ->
  solve_problem W text (tick (tick st)) = (Ok VNone, st3) ->
  let st4 := sending (PostSolution id (VInt 0)) st3 in
  let attempted := S (problems_attempted ls) in
  sent st4 = PostSolution id (VInt 0) :: sent st3 /\
  challenge_loop W (S fuel) start ls st =
    match respond W (length (sent st3)) (PostSolution id (VInt 0)) with
    | Body (Some result) =>
        match contains_key result "problem" with
        | Ok true =>
            challenge_loop W fuel start
              {| current_problem := result;
                 problems_solved := S (problems_solved ls);
                 problems_attempted := attempted |} st4
        | _ =>
            (Ok {| current_problem := current_problem ls;
                   problems_solved := problems_solved ls;
                   problems_attempted := attempted |}, st4)
        end
    | _ =>
        (Ok {| current_problem := current_problem ls;
               problems_solved := problems_solved ls;
               problems_attempted := attempted |}, st4)
    end.
Proof.
  intros Hin Htext Hid Hsolve st4 attempted. split; [reflexivity |].
  cbn [challenge_loop]. unfold bind at 1. unfold iteration.
  unfold bind at 1. rewrite time_time_eq, Hin.
  rewrite (attempt_after_failure W ls (tick st) text id st3 Htext Hid Hsolve).
  destruct (respond W (length (sent st3)) (PostSolution id (VInt 0)))
    as [| [result |]]; try reflexivity.
  destruct (contains_key result "problem") as [[|] | e |]; reflexivity.
Qed.

Lemma failed_solve_submits_zero_witness :
  let ls := {| current_problem := problem "p1" "Luke trains with Pikachu";
               problems_solved := 0; problems_attempted := 0 |} in
  let st3 := sending (PostChat (VStr "Luke trains with Pikachu")) (tick (tick initial)) in
  let st4 := sending (PostSolution (VStr "p1") (VInt 0)) st3 in
  sent st4 = PostSolution (VStr "p1") (VInt 0) :: sent st3 /\
  challenge_loop mute_world 2 0 ls initial =
  challenge_loop mute_world 1 0
    {| current_problem := problem "p2" "Another problem";
       problems_solved := 1; problems_attempted := 1 |} st4.
Proof.
  intros ls st3 st4.
  exact (failed_solve_submits_zero mute_world 1 0 ls initial
           (VStr "Luke trains with Pikachu") (VStr "p1") st3
           eq_refl eq_refl eq_refl eq_refl).
Defined.

(** ** The bindings *)

Lemma alias_inj k k' i i' : alias k i = alias k' i' -> k = k' /\ i = i'.
Proof.
  unfold alias. destruct k, k'; cbn; intros H; try discriminate;
    simplify_eq; split; try reflexivity; eapply (inj pretty); eassumption.
Qed.

Lemma found_materialized k r : materialized k r -> found r = r.
Proof.
  destruct r as [d |]; [| reflexivity]. cbn. intros H.
  destruct d; [destruct k; discriminate | reflexivity].
Qed.

(** Positions before [i] are never written by the loop from [i] on. *)
Lemma bound_lookup_other k rs : forall i entities key,
  (forall j, j < length rs -> key <> alias k (i + j)) ->
  bound k i rs entities !! key = entities !! key.
Proof.
  induction rs as [| r rs IH]; intros i entities key Hkey; [reflexivity |].
  cbn [bound]. rewrite IH.
  - destruct (found r); [| reflexivity].
    apply lookup_insert_ne. intros Heq. apply (Hkey 0); [cbn; lia |].
    rewrite Nat.add_0_r. symmetry. exact Heq.
  - intros j Hj. replace (S i + j) with (i + S j) by lia.
    apply Hkey. cbn. lia.
Qed.

Lemma bound_lookup_alias k rs : forall i entities j,
  j < length rs ->
  bound k i rs entities !! alias k (i + j) =
  match rs !! j ≫= found with
  | Some d => Some d
  | None => entities !! alias k (i + j)
  end.
Proof.
  induction rs as [| r rs IH]; intros i entities j Hj; [cbn in Hj; lia |].
  cbn [bound]. destruct j as [| j].
  - rewrite Nat.add_0_r. cbn [lookup list_lookup mbind option_bind].
    rewrite bound_lookup_other.
    + destruct (found r); [apply lookup_insert_eq | reflexivity].
    + intros j _ Heq. apply alias_inj in Heq as [_ Heq]. lia.
  - replace (i + S j) with (S i + j) by lia.
    rewrite IH by (cbn in Hj; lia).
    cbn [lookup list_lookup]. change (rs !! j) with (rs !! j).
    destruct (rs !! j ≫= found); [reflexivity |].
    destruct (found r); [| reflexivity].
    apply lookup_insert_ne. intros Heq. apply alias_inj in Heq as [_ Heq]. lia.
Qed.

(** The loop of one kind over names that are strings does what
    [resolve_each] and [bound] say. *)
Lemma bind_names_resolve W k names : forall i entities st,
  state_ok st ->
  bind_names (kindname k) (resolve W k) i (map VStr names) entities st
  = (Ok (bound k i (fst (resolve_each W k names st)) entities),
     snd (resolve_each W k names st))
  /\ state_ok (snd (resolve_each W k names st))
  /\ Forall (materialized k) (fst (resolve_each W k names st))
  /\ length (fst (resolve_each W k names st)) = length names.
Proof.
  induction names as [| name names IH]; intros i entities st Hst.
  - cbn. repeat split; auto.
  - cbn [map bind_names resolve_each call_getter]. unfold bind at 1.
    destruct (resolve_total W k name st Hst) as (r & st' & Hres & Hst' & Hr).
    rewrite Hres.
    destruct (IH (S i)
                (match found r with
                 | Some d => <[alias k i := d]> entities
                 | None => entities
                 end) st' Hst') as (Hrun & Hok & Hall & Hlen).
    destruct (resolve_each W k names st') as [rs st''] eqn:Heach.
    cbn [fst snd] in *. split; [exact Hrun |]. split; [exact Hok |].
    split; [constructor; assumption | cbn; lia].
Qed.

Lemma bind_kind_intent W k cs ps ms op entities st :
  state_ok st ->
  let names := match k with Character => cs | Planet => ps | Pokemon => ms end in
  bind_kind (intent cs ps ms op) (intent_key k) (kindname k) (resolve W k) entities st
  = (Ok (bound k 1 (fst (resolve_each W k names st)) entities),
     snd (resolve_each W k names st)).
Proof.
  intros Hst names. unfold bind_kind.
  assert (Hlist : dot_get_list (intent cs ps ms op) (intent_key k)
                  = Ok (VList (map VStr names))) by (destruct k; reflexivity).
  unfold bind at 1, lift at 1. rewrite Hlist.
  unfold bind at 1, lift at 1. cbn [py_iter].
  apply (bind_names_resolve W k names 1 entities st Hst).
Qed.

(** Evaluation looks at the namespace through the names of the
    expression only. *)
Lemma eval_expr_agree (ns1 ns2 : gmap string entity) e :
  (forall x, x ∈ names_in e -> ns1 !! x = ns2 !! x) ->
  eval_expr ns1 e = eval_expr ns2 e.
Proof.
  induction e as [v | x | e IH a | e IHe k IHk | e IH | e IH | op l IHl r IHr];
    intros H; cbn [eval_expr names_in] in *.
  - reflexivity.
  - unfold lookup_name. rewrite (H x) by (apply list_elem_of_singleton; reflexivity).
    reflexivity.
  - rewrite IH by exact H. reflexivity.
  - rewrite IHe by (intros; apply H, elem_of_app; auto).
    rewrite IHk by (intros; apply H, elem_of_app; auto). reflexivity.
  - rewrite IH by exact H. reflexivity.
  - rewrite IH by exact H. reflexivity.
  - rewrite IHl by (intros; apply H, elem_of_app; auto).
    rewrite IHr by (intros; apply H, elem_of_app; auto). reflexivity.
Qed.

Lemma evaluate_unreferenced interpretation op e a d (entities : gmap string entity) st :
  getitem interpretation "operation" = Ok (VStr op) ->
  py_parse op = Some e ->
  a ∉ names_in e ->
  evaluate interpretation (<[a := d]> entities) st
  = evaluate interpretation entities st.
Proof.
  intros Hop Hparse Ha. unfold evaluate, try_except.
  unfold bind at 1 3, lift at 1 4. rewrite Hop.
  unfold bind, lift. cbn [py_eval]. rewrite Hparse.
  rewrite (eval_expr_agree (<[a := d]> entities) entities e); [reflexivity |].
  intros x Hx. apply lookup_insert_ne. intros ->. exact (Ha Hx).
Qed.

Lemma bound_lookup k rs (entities : gmap string entity) k' j :
  Forall (materialized k) rs ->
  bound k 1 rs entities !! alias k' (S j) =
  if decide (k = k') then
    match mjoin (rs !! j) with
    | Some d => Some d
    | None => entities !! alias k' (S j)
    end
  else entities !! alias k' (S j).
Proof.
  intros Hrs. case_decide as Hk.
  - subst k'. destruct (decide (j < length rs)) as [Hj | Hj].
    + change (S j) with (1 + j). rewrite bound_lookup_alias by exact Hj.
      destruct (rs !! j) as [r |] eqn:Hr; [| reflexivity]. cbn.
      rewrite (found_materialized k r); [reflexivity |].
      rewrite Forall_forall in Hrs. apply Hrs.
      eapply list_elem_of_lookup_2. exact Hr.
    + rewrite lookup_ge_None_2 by lia. cbn.
      apply bound_lookup_other. intros j' Hj' Heq.
      apply alias_inj in Heq as [_ Heq]. lia.
  - apply bound_lookup_other. intros j' _ Heq.
    apply alias_inj in Heq as [Heq _]. congruence.
Qed.

Lemma bound_lookup_not_alias k rs (entities : gmap string entity) key i :
  (forall k' j, key <> alias k' j) ->
  bound k i rs entities !! key = entities !! key.
Proof. intros H. apply bound_lookup_other. intros j _. apply H. Qed.

(** C9. For an intent whose names are strings, the three loops resolve
    the names of each kind in order ([resolve_each]) and leave a
    namespace in which the alias of kind [k] and position [j + 1] is bound
    exactly when the resolution of the [j]-th name of that kind gave an
    entity, and then to that entity; nothing else is bound, so a name
    that did not resolve leaves no entry and does not shift the positions
    after it.  Whether an alias is bound or not makes no difference to
    the evaluation of an operation that does not refer to it. *)
Theorem bindings_are_positional W cs ps ms op st :
  state_ok st ->
  let rc := resolve_each W Character cs st in
  let rp := resolve_each W Planet ps (snd rc) in
  let rm := resolve_each W Pokemon ms (snd rp) in
  let names k := match k with Character => cs | Planet => ps | Pokemon => ms end in
  let results k :=
    match k with Character => fst rc | Planet => fst rp | Pokemon => fst rm end in
  exists entities : gmap string entity,
    bindings W (intent cs ps ms op) st = (Ok entities, snd rm)
    /\ (forall k, length (results k) = length (names k))
    /\ (forall k j, entities !! alias k (S j) = mjoin (results k !! j))
    /\ (forall key, (forall k j, key <> alias k j) -> entities !! key = None)
    /\ (forall e a d st',
          py_parse op = Some e -> a ∉ names_in e ->
          evaluate (intent cs ps ms op) (<[a := d]> entities) st'
          = evaluate (intent cs ps ms op) entities st').
Proof.
  intros Hst rc rp rm names results.
  destruct (bind_names_resolve W Character cs 1 ∅ st Hst) as (_ & Hst1 & Hc & Hlc).
  fold rc in Hst1, Hc, Hlc.
  destruct (bind_names_resolve W Planet ps 1 ∅ (snd rc) Hst1) as (_ & Hst2 & Hp & Hlp).
  fold rp in Hst2, Hp, Hlp.
  destruct (bind_names_resolve W Pokemon ms 1 ∅ (snd rp) Hst2) as (_ & _ & Hm & Hlm).
  fold rm in Hm, Hlm.
  exists (bound Pokemon 1 (fst rm) (bound Planet 1 (fst rp) (bound Character 1 (fst rc) ∅))).
  split; [| split; [| split; [| split]]].
  - unfold bindings. unfold bind at 1.
    rewrite (bind_kind_intent W Character cs ps ms op ∅ st Hst).
    unfold bind at 1.
    rewrite (bind_kind_intent W Planet cs ps ms op _ _ Hst1).
    rewrite (bind_kind_intent W Pokemon cs ps ms op _ _ Hst2). reflexivity.
  - intros [| |]; assumption.
  - intros k j.
    rewrite (bound_lookup Pokemon _ _ k j Hm).
    rewrite (bound_lookup Planet _ _ k j Hp).
    rewrite (bound_lookup Character _ _ k j Hc).
    rewrite lookup_empty.
    destruct k; cbn; repeat case_decide; try congruence;
      match goal with |- match ?x with _ => _ end = _ => destruct x end; reflexivity.
  - intros key Hkey. rewrite !bound_lookup_not_alias by exact Hkey.
    apply lookup_empty.
  - intros e a d st' Hparse Ha.
    apply (evaluate_unreferenced (intent cs ps ms op) op e a d _ st');
      [reflexivity | exact Hparse | exact Ha].
Qed.

Lemma bindings_are_positional_witness :
  exists entities : gmap string entity,
    bindings (world_of scenario1 0)
      (intent ["Darth Nobody"; "Luke Skywalker"] [] ["Pikachu"]
         "character2.mass * pokemon1.base_experience") initial
    = (Ok entities,
       snd (resolve_each (world_of scenario1 0) Pokemon ["Pikachu"]
              (snd (resolve_each (world_of scenario1 0) Planet []
                      (snd (resolve_each (world_of scenario1 0) Character
                              ["Darth Nobody"; "Luke Skywalker"] initial))))))
    /\ entities !! alias Character 1 = None
    /\ entities !! alias Character 2 = Some luke_entity
    /\ entities !! alias Pokemon 1 = Some pikachu_entity.
Proof.
  destruct (bindings_are_positional (world_of scenario1 0)
              ["Darth Nobody"; "Luke Skywalker"] [] ["Pikachu"]
              "character2.mass * pokemon1.base_experience" initial
              state_ok_initial) as (entities & Hrun & _ & Hlook & _).
  exists entities. split; [exact Hrun |].
  rewrite (Hlook Character 0), (Hlook Character 1), (Hlook Pokemon 0).
  repeat split; vm_compute; reflexivity.
Defined.

(** An alias that is referred to but not bound makes the evaluation
    fail, and the solver return [None]. *)
Example unbound_alias_is_none :
  fst (solve_problem
         (world_of (dq "{'characters': ['Darth Nobody'], 'operation': 'character1.mass * 2'}") 0)
         (VStr "Nobody") initial) = Ok VNone.
Proof. vm_compute. reflexivity. Qed.

Example omitted_alias_keeps_positions :
  fst (solve_problem
         (world_of (dq "{'characters': ['Darth Nobody', 'Luke Skywalker'], 'operation': 'character2.mass * 2'}") 0)
         (VStr "Nobody") initial) = Ok (VFloat (FFin 154)).
Proof. vm_compute. reflexivity. Qed.

(** * Further properties of the code *)

(** ** The memo tables of [lru_cache] *)

Lemma cache_find_remove_ne c name name' :
  name' <> name -> cache_find (cache_remove c name) name' = cache_find c name'.
Proof.
  intros Hne. induction c as [| [k v] c IH]; cbn; [reflexivity |].
  destruct (String.eqb k name) eqn:Hk.
  - apply String.eqb_eq in Hk. subst k.
    destruct (String.eqb name name') eqn:Hk'; [| exact IH].
    apply String.eqb_eq in Hk'. congruence.
  - cbn. destruct (String.eqb k name'); [reflexivity | exact IH].
Qed.

Lemma cache_remove_length c name : length (cache_remove c name) <= length c.
Proof.
  induction c as [| [k v] c IH]; cbn; [lia |].
  destruct (String.eqb k name); cbn; lia.
Qed.

Lemma cache_remove_found_length c name v :
  cache_find c name = Some v -> length (cache_remove c name) < length c.
Proof.
  induction c as [| [k v'] c IH]; cbn; [discriminate |].
  destruct (String.eqb k name).
  - intros _. pose proof (cache_remove_length c name). lia.
  - intros H. specialize (IH H). cbn. lia.
Qed.

Lemma cache_remove_keys c name : name ∉ map fst (cache_remove c name).
Proof.
  induction c as [| [k v] c IH]; cbn; [apply not_elem_of_nil |].
  destruct (String.eqb k name) eqn:Hk; [exact IH |].
  cbn. intros Hin. apply elem_of_cons in Hin as [-> | Hin]; [| exact (IH Hin)].
  rewrite String.eqb_refl in Hk. discriminate.
Qed.

Lemma cache_remove_subkeys c name x :
  x ∈ map fst (cache_remove c name) -> x ∈ map fst c.
Proof.
  induction c as [| [k v] c IH]; cbn; [easy |].
  destruct (String.eqb k name); cbn.
  - intros H. apply elem_of_cons. right. exact (IH H).
  - intros H. apply elem_of_cons in H as [-> | H]; apply elem_of_cons; auto.
Qed.

Lemma cache_remove_nodup c name :
  NoDup (map fst c) -> NoDup (map fst (cache_remove c name)).
Proof.
  induction c as [| [k v] c IH]; cbn; [constructor |].
  intros Hnd. apply NoDup_cons in Hnd as [Hk Hnd].
  destruct (String.eqb k name); [exact (IH Hnd) |].
  cbn. apply NoDup_cons. split; [| exact (IH Hnd)].
  intros Hin. apply Hk. exact (cache_remove_subkeys c name k Hin).
Qed.

Lemma cache_find_none_keys c name : cache_find c name = None -> name ∉ map fst c.
Proof.
  induction c as [| [k v] c IH]; cbn; [intros _; apply not_elem_of_nil |].
  destruct (String.eqb k name) eqn:Hk; [discriminate |].
  intros H Hin. apply elem_of_cons in Hin as [-> | Hin]; [| exact (IH H Hin)].
  rewrite String.eqb_refl in Hk. discriminate.
Qed.

(** What a getter does to its own table. *)
Lemma resolve_table W k name st :
  table k (snd (resolve W k name st)) =
  match cache_find (table k st) name with
  | Some v => (name, v) :: cache_remove (table k st) name
  | None =>
      match fst (fetch W k name st) with
      | Ok v => take 128 ((name, v) :: table k st)
      | _ => table k st
      end
  end.
Proof.
  rewrite resolve_unfold. unfold lru_cache.
  destruct (cache_find (table k st) name) as [v |] eqn:Hfind.
  - cbn [snd]. rewrite table_store. rewrite decide_True by done. reflexivity.
  - pose proof (fetch_keeps_tables W k name st k) as Hkeep.
    destruct (fetch W k name st) as [[v | e |] st'] eqn:Hf; cbn [fst snd] in *.
    + rewrite Hkeep, Hfind. cbn [snd]. rewrite table_store.
      rewrite decide_True by done. reflexivity.
    + exact Hkeep.
    + exact Hkeep.
Qed.

(** The tables of the other kinds are not touched. *)
Lemma resolve_other_table W k name st k' :
  k' <> k -> table k' (snd (resolve W k name st)) = table k' st.
Proof.
  intros Hne. rewrite resolve_unfold. unfold lru_cache.
  destruct (cache_find (table k st) name) as [v |].
  - cbn [snd]. rewrite table_store. rewrite decide_False by done. reflexivity.
  - pose proof (fetch_keeps_tables W k name st) as Hkeep.
    destruct (fetch W k name st) as [[v | e |] st'] eqn:Hf; cbn [fst snd] in *.
    + destruct (cache_find (table k st') name); cbn [snd]; [apply Hkeep |].
      rewrite table_store. rewrite decide_False by done. apply Hkeep.
    + apply Hkeep.
    + apply Hkeep.
Qed.

(** X1. A name that resolved, to an entity or to [None], is answered
    from the memo table when it is resolved again right away: the same
    result comes back and no request is sent. *)
Theorem repeated_resolution_sends_nothing W k name st v st1 :
  resolve W k name st = (Ok v, st1) ->
  exists st2, resolve W k name st1 = (Ok v, st2) /\ sent st2 = sent st1.
Proof.
  intros Hres. apply resolve_hit. exact (resolve_stores W k name st v st1 Hres).
Qed.

Lemma repeated_resolution_sends_nothing_witness :
  exists st2,
    resolve (world_of scenario1 0) Pokemon "Pikachu"
      (snd (resolve (world_of scenario1 0) Pokemon "Pikachu" initial))
    = (Ok (Some pikachu_entity), st2)
    /\ sent st2 = sent (snd (resolve (world_of scenario1 0) Pokemon "Pikachu" initial)).
Proof.
  apply (repeated_resolution_sends_nothing (world_of scenario1 0) Pokemon
           "Pikachu" initial).
  vm_compute. reflexivity.
Defined.

(** X2. Each memo table holds at most 128 entries, no name twice: a
    table within these bounds stays within them through any resolution,
    of its own kind or of another. *)
Theorem tables_stay_bounded W k name st k' :
  length (table k' st) <= 128 ->
  NoDup (map fst (table k' st)) ->
  length (table k' (snd (resolve W k name st))) <= 128
  /\ NoDup (map fst (table k' (snd (resolve W k name st)))).
Proof.
  intros Hlen Hnd. destruct (decide (k' = k)) as [-> | Hne].
  - rewrite resolve_table.
    destruct (cache_find (table k st) name) as [v |] eqn:Hfind.
    + split.
      * cbn. pose proof (cache_remove_found_length _ _ _ Hfind). lia.
      * cbn. apply NoDup_cons. split;
          [apply cache_remove_keys | apply cache_remove_nodup, Hnd].
    + destruct (fst (fetch W k name st)); try (split; assumption).
      split; [rewrite length_take; lia |].
      rewrite <- firstn_map. eapply sublist_NoDup; [| apply sublist_take].
      cbn. apply NoDup_cons.
      split; [apply cache_find_none_keys, Hfind | exact Hnd].
  - rewrite resolve_other_table by exact Hne. split; assumption.
Qed.

Lemma tables_stay_bounded_witness :
  length (table Character
            (snd (resolve (world_of scenario1 0) Character "Luke Skywalker" initial)))
  <= 128
  /\ NoDup (map fst (table Character
              (snd (resolve (world_of scenario1 0) Character "Luke Skywalker" initial)))).
Proof.
  apply (tables_stay_bounded (world_of scenario1 0) Character "Luke Skywalker"
           initial Character).
  - cbn. lia.
  - cbn. constructor.
Defined.

(** X3. A resolution forgets nothing while its table is below capacity:
    every other name keeps its entry, whether the resolution was a hit
    or a miss.  (A hit never forgets, whatever the size.) *)
Theorem other_entries_survive W k name st name' :
  name' <> name ->
  length (table k st) < 128 \/ is_Some (cache_find (table k st) name) ->
  cache_find (table k (snd (resolve W k name st))) name'
  = cache_find (table k st) name'.
Proof.
  intros Hne Hroom. rewrite resolve_table.
  destruct (cache_find (table k st) name) as [v |] eqn:Hfind.
  - cbn. destruct (String.eqb name name') eqn:Hk.
    + apply String.eqb_eq in Hk. congruence.
    + apply cache_find_remove_ne. exact Hne.
  - destruct Hroom as [Hroom | [? [=]]].
    destruct (fst (fetch W k name st)); try reflexivity.
    rewrite take_ge by (cbn; lia). cbn.
    destruct (String.eqb name name') eqn:Hk; [| reflexivity].
    apply String.eqb_eq in Hk. congruence.
Qed.

Lemma other_entries_survive_witness :
  cache_find
    (table Character
       (snd (resolve (world_of scenario1 0) Character "Darth Nobody"
               (snd (resolve (world_of scenario1 0) Character "Luke Skywalker" initial)))))
    "Luke Skywalker"
  = cache_find
      (table Character
         (snd (resolve (world_of scenario1 0) Character "Luke Skywalker" initial)))
      "Luke Skywalker".
Proof.
  apply (other_entries_survive (world_of scenario1 0) Character "Darth Nobody"
           (snd (resolve (world_of scenario1 0) Character "Luke Skywalker" initial))
           "Luke Skywalker").
  - discriminate.
  - left. vm_compute. lia.
Defined.

(** ** The requests of the getters *)

Lemma emits_ret {A} P (a : A) : emits P 0 (ret a).
Proof. intros st. exists []. cbn. auto. Qed.

Lemma emits_lift {A} P (o : outcome A) : emits P 0 (lift o).
Proof. intros st. exists []. cbn. auto. Qed.

Lemma emits_send W (P : request -> Prop) r : P r -> emits P 1 (session_send W r).
Proof.
  intros HP st. exists [r]. rewrite session_send_eq. cbn.
  repeat split; auto.
Qed.

Lemma emits_weaken {A} P n n' (m : M A) : n <= n' -> emits P n m -> emits P n' m.
Proof.
  intros Hle Hm st. destruct (Hm st) as (new & H1 & H2 & H3 & H4).
  exists new. repeat split; auto. lia.
Qed.

Lemma emits_bind {A B} P n1 n2 (m : M A) (k : A -> M B) :
  emits P n1 m -> (forall a, emits P n2 (k a)) -> emits P (n1 + n2) (bind m k).
Proof.
  intros Hm Hk st. unfold bind.
  destruct (Hm st) as (new1 & H1 & H2 & H3 & H4).
  destruct (m st) as [[a | e |] st1]; cbn [snd] in *.
  - destruct (Hk a st1) as (new2 & G1 & G2 & G3 & G4).
    exists (new2 ++ new1). rewrite G1, H1, G4, H4, length_app.
    repeat split; [apply app_assoc | lia | apply Forall_app; auto].
  - exists new1. repeat split; auto. lia.
  - exists new1. repeat split; auto. lia.
Qed.

Lemma emits_try {A} P n1 n2 (body : M A) (h : exn -> M A) :
  emits P n1 body -> (forall e, emits P n2 (h e)) ->
  emits P (n1 + n2) (try_except body h).
Proof.
  intros Hb Hh st. unfold try_except.
  destruct (Hb st) as (new1 & H1 & H2 & H3 & H4).
  destruct (body st) as [[a | e |] st1]; cbn [snd] in *.
  - exists new1. repeat split; auto. lia.
  - destruct (Hh e st1) as (new2 & G1 & G2 & G3 & G4).
    exists (new2 ++ new1). rewrite G1, H1, G4, H4, length_app.
    repeat split; [apply app_assoc | lia | apply Forall_app; auto].
  - exists new1. repeat split; auto. lia.
Qed.

Lemma emits_if {A} P n (b : bool) (m1 m2 : M A) :
  emits P n m1 -> emits P n m2 -> emits P n (if b then m1 else m2).
Proof. destruct b; auto. Qed.

Lemma emits_get_val W url : emits is_get 1 (session_get_val W url).
Proof.
  destruct url; try (eapply emits_weaken; [| apply emits_lift]; lia).
  apply emits_send. exact I.
Qed.

(** A pure step followed by the rest. *)
Lemma emits_lift_bind {A B} P n (o : outcome A) (k : A -> M B) :
  (forall a, emits P n (k a)) -> emits P n (bind (lift o) k).
Proof. intros Hk. apply (emits_bind P 0 n); [apply emits_lift | exact Hk]. Qed.

Ltac step_emits :=
  lazymatch goal with
  | |- emits _ _ (bind (lift _) _) => apply emits_lift_bind; intros ?
  | |- emits _ _ (if _ then _ else _) => apply emits_if
  | |- emits _ _ (ret _) => eapply emits_weaken; [| apply emits_ret]; lia
  | |- emits _ _ (lift _) => eapply emits_weaken; [| apply emits_lift]; lia
  end.

Lemma fetch_emits W k name : emits is_get (requests_of k) (fetch W k name).
Proof.
  destruct k; cbn [fetch requests_of].
  - unfold character_fetch.
    apply (emits_try is_get 2 0); [| intros; apply emits_ret].
    apply (emits_bind is_get 1 1); [apply emits_send; exact I | intros ?].
    repeat step_emits.
    apply (emits_bind is_get 1 0).
    + apply emits_if; [| step_emits].
      apply (emits_bind is_get 1 0); [apply emits_get_val | intros ?].
      repeat step_emits.
    + intros ?. repeat step_emits.
  - unfold planet_fetch.
    apply (emits_try is_get 1 0); [| intros; apply emits_ret].
    apply (emits_bind is_get 1 0); [apply emits_send; exact I | intros ?].
    repeat step_emits.
  - unfold pokemon_fetch.
    apply (emits_try is_get 1 0); [| intros; apply emits_ret].
    apply (emits_bind is_get 1 0); [apply emits_send; exact I | intros ?].
    repeat step_emits.
Qed.

Lemma ticks_store k c st : ticks (store k c st) = ticks st.
Proof. destruct k; reflexivity. Qed.

Lemma resolve_emits W k name : emits is_get (requests_of k) (resolve W k name).
Proof.
  intros st. rewrite resolve_unfold. unfold lru_cache.
  destruct (cache_find (table k st) name) as [v |].
  - exists []. cbn [snd]. rewrite sent_store, ticks_store. cbn.
    repeat split; auto. lia.
  - destruct (fetch_emits W k name st) as (new & H1 & H2 & H3 & H4).
    destruct (fetch W k name st) as [[v | e |] st']; cbn [snd] in *;
      try (exists new; repeat split; assumption).
    destruct (cache_find (table k st') name); cbn [snd];
      rewrite ?sent_store, ?ticks_store; exists new; repeat split; assumption.
Qed.

(** X4. A resolution sends at most two requests for a character and at
    most one for a planet or a pokemon, each of them a GET; it submits
    nothing and does not read the clock.  A name that is in the table
    costs no request at all. *)
Theorem resolution_costs_few_requests W k name st :
  exists new,
    sent (snd (resolve W k name st)) = new ++ sent st
    /\ length new <= requests_of k
    /\ Forall is_get new
    /\ ticks (snd (resolve W k name st)) = ticks st
    /\ (is_Some (cache_find (table k st) name) -> new = []).
Proof.
  destruct (resolve_emits W k name st) as (new & H1 & H2 & H3 & H4).
  exists new. repeat split; try assumption.
  intros [v Hv]. destruct (resolve_hit W k name st v Hv) as (st' & Hres & Hsent).
  rewrite Hres in H1. cbn [snd] in H1. rewrite Hsent in H1.
  destruct new as [| r new]; [reflexivity |].
  apply (f_equal length) in H1. rewrite length_app in H1. cbn in H1. lia.
Qed.

(** X5. A search that finds nothing is [None] after exactly one request:
    when the search for a character or a planet raises, returns a body
    that is not JSON, a payload without [results] or with an empty
    [results], the fetch returns [None] and only the search went out. *)
Theorem search_without_match_is_none W k name st :
  k <> Pokemon ->
  no_match (respond W (length (sent st)) (Get (search_url k name))) = true ->
  fetch W k name st = (Ok None, sending (Get (search_url k name)) st).
Proof.
  intros Hk Hno. unfold no_match in Hno.
  destruct k; [| | congruence]; cbn [fetch search_url] in *.
  - unfold character_fetch, try_except. unfold bind at 1.
    rewrite session_send_eq.
    destruct (respond W (length (sent st)) (Get (SWAPI_URL ++ "/people/?search=" ++ name)))
      as [| [data |]]; try reflexivity.
    unfold bind at 1, lift at 1. cbn [response_json].
    unfold bind at 1, lift at 1.
    destruct (getitem data "results") as [results | e |] eqn:Hg; try reflexivity.
    + destruct (truthy results); cbn in Hno; [discriminate | reflexivity].
    + pose proof (settled_getitem data "results") as Hs. rewrite Hg in Hs.
      destruct Hs.
  - unfold planet_fetch, try_except. unfold bind at 1.
    rewrite session_send_eq.
    destruct (respond W (length (sent st)) (Get (SWAPI_URL ++ "/planets/?search=" ++ name)))
      as [| [data |]]; try reflexivity.
    unfold bind at 1, lift at 1. cbn [response_json].
    unfold bind at 1, lift at 1.
    destruct (getitem data "results") as [results | e |] eqn:Hg; try reflexivity.
    + destruct (truthy results); cbn in Hno; [discriminate | reflexivity].
    + pose proof (settled_getitem data "results") as Hs. rewrite Hg in Hs.
      destruct Hs.
Qed.

Lemma search_without_match_is_none_witness :
  fetch (world_of scenario1 0) Character "Darth Nobody" initial
  = (Ok None, sending (Get (search_url Character "Darth Nobody")) initial).
Proof.
  apply (search_without_match_is_none (world_of scenario1 0) Character
           "Darth Nobody" initial); [discriminate | reflexivity].
Defined.



(** ** The fence around the reply of the language service *)

Lemma string_of_list_app a b :
  string_of_list_ascii (a ++ b) = (string_of_list_ascii a ++ string_of_list_ascii b)%string.
Proof.
  induction a as [| c a IH]; [reflexivity |].
  simpl. rewrite IH. reflexivity.
Qed.

Lemma list_of_string_app a b :
  list_ascii_of_string (a ++ b)%string = list_ascii_of_string a ++ list_ascii_of_string b.
Proof.
  induction a as [| c a IH]; [reflexivity |].
  simpl. rewrite IH. reflexivity.
Qed.

Lemma split_lines_aux_nonempty cur cs : split_lines_aux cur cs <> [].
Proof.
  revert cur. induction cs as [| c cs IH]; intros cur; cbn; [discriminate |].
  destruct (Ascii.eqb c newline); [discriminate | apply IH].
Qed.

Lemma join_lines_cons x l :
  l <> [] -> join_lines (x :: l) = (x ++ String newline (join_lines l))%string.
Proof. destruct l; [congruence | reflexivity]. Qed.

(** ['\n'.join(s.split('\n'))] is [s]. *)
Lemma join_split_aux cs : forall cur,
  join_lines (split_lines_aux cur cs) = string_of_list_ascii (rev cur ++ cs).
Proof.
  induction cs as [| c cs IH]; intros cur; cbn [split_lines_aux].
  - rewrite app_nil_r. reflexivity.
  - destruct (Ascii.eqb c newline) eqn:Hc.
    + apply Ascii.eqb_eq in Hc. subst c.
      rewrite join_lines_cons by apply split_lines_aux_nonempty.
      rewrite IH. cbn [rev app]. rewrite string_of_list_app. reflexivity.
    + rewrite IH. cbn [rev]. rewrite <- app_assoc. reflexivity.
Qed.

Lemma join_split s : join_lines (split_lines s) = s.
Proof.
  unfold split_lines. rewrite join_split_aux. cbn.
  apply string_of_list_ascii_of_string.
Qed.

Lemma split_lines_aux_app a : forall cur b,
  split_lines_aux cur (a ++ newline :: b)
  = split_lines_aux cur a ++ split_lines_aux [] b.
Proof.
  induction a as [| c a IH]; intros cur b; cbn [app split_lines_aux].
  - rewrite Ascii.eqb_refl. reflexivity.
  - destruct (Ascii.eqb c newline); [cbn; rewrite IH; reflexivity | apply IH].
Qed.

Lemma split_lines_app a b :
  split_lines (a ++ String newline b) = split_lines a ++ split_lines b.
Proof.
  unfold split_lines. rewrite list_of_string_app. cbn [list_ascii_of_string].
  apply split_lines_aux_app.
Qed.

Lemma split_lines_aux_one cs : forall cur,
  forallb (fun c => negb (Ascii.eqb c newline)) cs = true ->
  split_lines_aux cur cs = [string_of_list_ascii (rev cur ++ cs)].
Proof.
  induction cs as [| c cs IH]; intros cur H; cbn in *.
  - rewrite app_nil_r. reflexivity.
  - apply andb_prop in H as [Hc Hcs].
    destruct (Ascii.eqb c newline); [discriminate |].
    rewrite IH by exact Hcs. cbn. rewrite <- app_assoc. reflexivity.
Qed.

Lemma split_lines_one s : one_line s = true -> split_lines s = [s].
Proof.
  intros H. unfold split_lines. rewrite split_lines_aux_one by exact H.
  cbn. rewrite string_of_list_ascii_of_string. reflexivity.
Qed.

Lemma drop_first_last_mid {A} (x y : A) l : drop_first_last (x :: l ++ [y]) = l.
Proof.
  unfold drop_first_last.
  change (drop 1 (x :: l ++ [y])) with (l ++ [y]).
  replace (length (x :: l ++ [y]) - 2) with (length l)
    by (cbn [length]; rewrite length_app; cbn [length]; lia).
  apply take_app_length.
Qed.

Lemma prefix_app p : forall s t,
  String.prefix p s = true -> String.prefix p (s ++ t) = true.
Proof.
  induction p as [| a p IH]; intros s t H.
  - destruct (s ++ t)%string; reflexivity.
  - destruct s as [| b s]; [discriminate |]. simpl in *.
    destruct (Ascii.ascii_dec a b); [apply IH; exact H | discriminate].
Qed.

(** The text between an opening line that starts with three backquotes
    and a closing line is what the fence removal leaves, less a leading
    [json]. *)
Lemma strip_fence_block header body footer :
  String.prefix "```" header = true ->
  one_line header = true ->
  one_line footer = true ->
  strip_fence (header ++ String newline (body ++ String newline footer))
  = if String.prefix "json" body then drop4 body else body.
Proof.
  intros Hpre Hh Hf. unfold strip_fence.
  assert (Hp : String.prefix "```"
                 (header ++ String newline (body ++ String newline footer)) = true)
    by (apply prefix_app; exact Hpre).
  rewrite Hp. rewrite !split_lines_app.
  rewrite (split_lines_one header Hh), (split_lines_one footer Hf).
  cbn [app]. rewrite drop_first_last_mid, join_split. reflexivity.
Qed.

(** The outcome of [interpret_problem] when the service replies with a
    message. *)
Lemma interpret_problem_chat W text st content :
  respond W (length (sent st)) (PostChat text) = Body (Some (chat content)) ->
  interpret_problem W text st
  = (decoded (json_loads (str_strip (strip_fence (str_strip content)))),
     sending (PostChat text) st).
Proof.
  intros Hresp. unfold interpret_problem, try_except. unfold bind at 1.
  rewrite session_send_eq, Hresp.
  unfold bind at 1, lift at 1. cbn [response_json].
  unfold bind at 1, lift at 1.
  change (getitem (chat content) "choices")
    with (Ok (VList [VDict [("message", VDict [("content", VStr content)])]])).
  unfold bind at 1, lift at 1. cbn [getitem0].
  unfold bind at 1, lift at 1.
  change (getitem (VDict [("message", VDict [("content", VStr content)])]) "message")
    with (Ok (VDict [("content", VStr content)])).
  unfold bind at 1, lift at 1.
  change (getitem (VDict [("content", VStr content)]) "content")
    with (Ok (VStr content)).
  unfold bind at 1, lift at 1. cbn [dot_strip]. unfold lift.
  destruct (json_loads (str_strip (strip_fence (str_strip content)))); reflexivity.
Qed.

(** X7. A reply wrapped in a fenced block is decoded as if the fence
    were not there: when the stripped message is an opening line that
    starts with three backquotes, a body that does not start with [json],
    and a closing line, [interpret_problem] returns what [json.loads]
    makes of the body (and [None] if that raises). *)
Theorem fenced_reply_is_decoded W text st content header body footer :
  respond W (length (sent st)) (PostChat text) = Body (Some (chat content)) ->
  str_strip content = (header ++ String newline (body ++ String newline footer))%string ->
  String.prefix "```" header = true ->
  one_line header = true ->
  one_line footer = true ->
  String.prefix "json" body = false ->
  interpret_problem W text st
  = (decoded (json_loads (str_strip body)), sending (PostChat text) st).
Proof.
  intros Hresp Hc Hpre Hh Hf Hj.
  rewrite (interpret_problem_chat W text st content Hresp).
  rewrite Hc, (strip_fence_block header body footer Hpre Hh Hf), Hj.
  reflexivity.
Qed.

(** X8. A fenced reply written on one line loses its payload: the first
    and the last line are the same line, nothing is left between them,
    and [interpret_problem] returns [None]. *)
Theorem one_line_fence_is_none W text st content :
  respond W (length (sent st)) (PostChat text) = Body (Some (chat content)) ->
  String.prefix "```" (str_strip content) = true ->
  one_line (str_strip content) = true ->
  interpret_problem W text st = (Ok VNone, sending (PostChat text) st).
Proof.
  intros Hresp Hpre Hone.
  rewrite (interpret_problem_chat W text st content Hresp).
  unfold strip_fence. rewrite Hpre, (split_lines_one _ Hone). reflexivity.
Qed.

Lemma interpret_problem_outcome W text st :
  snd (interpret_problem W text st) = sending (PostChat text) st
  /\ (forall e, fst (interpret_problem W text st) <> Raise e)
  /\ (match respond W (length (sent st)) (PostChat text) with
      | Fails | Body None => fst (interpret_problem W text st) = Ok VNone
      | _ => True
      end).
Proof.
  destruct (interpret_problem W text st) as [o s] eqn:H. cbn [fst snd].
  revert H. unfold interpret_problem, try_except. unfold bind at 1.
  rewrite session_send_eq.
  destruct (respond W (length (sent st)) (PostChat text)) as [| [data |]];
    [intros [= <- <-]; repeat split; discriminate |
     | intros [= <- <-]; repeat split; discriminate].
  unfold bind, lift. cbn [response_json].
  destruct (getitem data "choices") as [choices | |];
    [| intros [= <- <-]; repeat split; discriminate ..].
  destruct (getitem0 choices) as [choice | |];
    [| intros [= <- <-]; repeat split; discriminate ..].
  destruct (getitem choice "message") as [message | |];
    [| intros [= <- <-]; repeat split; discriminate ..].
  destruct (getitem message "content") as [raw | |];
    [| intros [= <- <-]; repeat split; discriminate ..].
  destruct (dot_strip raw) as [content | |];
    [| intros [= <- <-]; repeat split; discriminate ..].
  destruct (json_loads (str_strip (strip_fence content)));
    intros [= <- <-]; repeat split; discriminate.
Qed.

(** X9. [interpret_problem] never raises: it sends its one request and
    ends in a value (or outside the embedding, inside [json.loads]);
    nothing else changes.  When the request raises or the body is not
    JSON the value is [None]. *)
Theorem interpret_problem_never_raises W text st :
  snd (interpret_problem W text st) = sending (PostChat text) st
  /\ (forall e, fst (interpret_problem W text st) <> Raise e)
  /\ (match respond W (length (sent st)) (PostChat text) with
      | Fails | Body None => fst (interpret_problem W text st) = Ok VNone
      | _ => True
      end).
Proof. exact (interpret_problem_outcome W text st). Qed.

Lemma fenced_reply_is_decoded_witness :
  interpret_problem (world_of fenced_scenario1 0) (VStr "Luke trains with Pikachu") initial
  = (decoded (json_loads (str_strip scenario1)),
     sending (PostChat (VStr "Luke trains with Pikachu")) initial).
Proof.
  apply (fenced_reply_is_decoded (world_of fenced_scenario1 0)
           (VStr "Luke trains with Pikachu") initial fenced_scenario1
           "```json" scenario1 "```"); vm_compute; reflexivity.
Defined.

Example fenced_scenario1_decodes :
  fst (interpret_problem (world_of fenced_scenario1 0) (VStr "Luke") initial)
  = Ok (VDict [("characters", VList [VStr "Luke Skywalker"]);
               ("planets", VList []);
               ("pokemon", VList [VStr "Pikachu"]);
               ("operation", VStr "character1.mass * pokemon1.base_experience")]).
Proof. vm_compute. reflexivity. Qed.

Lemma one_line_fence_is_none_witness :
  interpret_problem (world_of one_line_reply 0) (VStr "Luke") initial
  = (Ok VNone, sending (PostChat (VStr "Luke")) initial).
Proof.
  apply (one_line_fence_is_none (world_of one_line_reply 0) (VStr "Luke") initial
           one_line_reply); reflexivity.
Defined.

(** ** The stages of [solve_problem] *)

Lemma round10_number v x : round10 v = Ok x -> number_or_none x.
Proof.
  destruct v as [[| b | z | [q | n |] | s | l | d] | | | |]; cbn;
    intros [= <-]; exact I.
Qed.

Lemma evaluate_outcome interpretation (entities : gmap string entity) st :
  snd (evaluate interpretation entities st) = st
  /\ match fst (evaluate interpretation entities st) with
     | Ok v => number_or_none v
     | Raise _ => False
     | Unmodelled => True
     end.
Proof.
  unfold evaluate, try_except, bind, lift.
  destruct (getitem interpretation "operation") as [operation | |];
    [| cbn; auto ..].
  destruct (py_eval operation entities) as [result | |]; [| cbn; auto ..].
  destruct (round10 result) as [x | |] eqn:Hr; cbn; auto.
  split; [reflexivity | exact (round10_number result x Hr)].
Qed.


(** The loop of one kind for a list of names that are strings. *)
Lemma bind_kind_names W k interpretation names (entities : gmap string entity) st :
  state_ok st ->
  dot_get_list interpretation (intent_key k) = Ok (VList (map VStr names)) ->
  bind_kind interpretation (intent_key k) (kindname k) (resolve W k) entities st
  = (Ok (bound k 1 (fst (resolve_each W k names st)) entities),
     snd (resolve_each W k names st))
  /\ state_ok (snd (resolve_each W k names st)).
Proof.
  intros Hst Hlist. unfold bind_kind.
  unfold bind at 1, lift at 1. rewrite Hlist.
  unfold bind at 1, lift at 1. cbn [py_iter].
  destruct (bind_names_resolve W k names 1 entities st Hst) as (H1 & H2 & _).
  split; assumption.
Qed.

Lemma bind_ok {A B} (m : M A) (k : A -> M B) st a st' :
  m st = (Ok a, st') -> bind m k st = k a st'.
Proof. intros H. unfold bind. rewrite H. reflexivity. Qed.

Lemma bindings_names W interpretation (names : kind -> list string) st :
  state_ok st ->
  (forall k, dot_get_list interpretation (intent_key k)
             = Ok (VList (map VStr (names k)))) ->
  exists entities st', bindings W interpretation st = (Ok entities, st').
Proof.
  intros Hst Hnames. unfold bindings.
  pose proof (fun e s H => bind_kind_names W Character interpretation
                (names Character) e s H (Hnames Character)) as Hc.
  pose proof (fun e s H => bind_kind_names W Planet interpretation
                (names Planet) e s H (Hnames Planet)) as Hp.
  pose proof (fun e s H => bind_kind_names W Pokemon interpretation
                (names Pokemon) e s H (Hnames Pokemon)) as Hm.
  destruct (Hc ∅ st Hst) as [Hc1 Hst2].
  erewrite bind_ok by exact Hc1.
  destruct (Hp (bound Character 1 (fst (resolve_each W Character (names Character) st)) ∅)
              _ Hst2) as [Hp1 Hst3].
  erewrite bind_ok by exact Hp1.
  destruct (Hm (bound Planet 1
                  (fst (resolve_each W Planet (names Planet)
                          (snd (resolve_each W Character (names Character) st))))
                  (bound Character 1
                     (fst (resolve_each W Character (names Character) st)) ∅))
              _ Hst3) as [Hm1 _].
  eexists _, _. exact Hm1.
Qed.

(** X11. When the intent is an object whose lists of names, where
    present, are lists of strings, [solve_problem] does not raise: inside
    the embedding it returns a number or [None].  A missing list counts
    as empty, a missing or ill-formed operation gives [None]. *)
Theorem solve_problem_on_wellformed_intent W text st interpretation
    (names : kind -> list string) :
  state_ok st ->
  fst (interpret_problem W text st) = Ok interpretation ->
  (forall k, dot_get_list interpretation (intent_key k)
             = Ok (VList (map VStr (names k)))) ->
  match fst (solve_problem W text st) with
  | Ok v => number_or_none v
  | Raise _ => False
  | Unmodelled => True
  end.
Proof.
  intros Hst Hint Hnames.
  destruct (interpret_problem_outcome W text st) as (Hsnd & _ & _).
  unfold solve_problem. unfold bind at 1.
  destruct (interpret_problem W text st) as [o st1]. cbn [fst snd] in *.
  subst o st1.
  assert (Hst1 : state_ok (sending (PostChat text) st))
    by (apply state_ok_ignores_sent; exact Hst).
  destruct (negb (truthy interpretation)); [exact I |].
  destruct (bindings_names W interpretation names _ Hst1 Hnames)
    as (entities & st' & Hb).
  erewrite bind_ok by exact Hb.
  apply evaluate_outcome.
Qed.

Lemma solve_problem_on_wellformed_intent_witness :
  match fst (solve_problem (world_of scenario1 0) (VStr "Luke trains with Pikachu") initial) with
  | Ok v => number_or_none v
  | Raise _ => False
  | Unmodelled => True
  end.
Proof.
  apply (solve_problem_on_wellformed_intent (world_of scenario1 0)
           (VStr "Luke trains with Pikachu") initial
           (intent ["Luke Skywalker"] [] ["Pikachu"]
              "character1.mass * pokemon1.base_experience")
           (fun k => match k with
                     | Character => ["Luke Skywalker"]
                     | Planet => []
                     | Pokemon => ["Pikachu"]
                     end)).
  - exact state_ok_initial.
  - vm_compute. reflexivity.
  - intros [| |]; reflexivity.
Defined.

(** ** What [solve_problem] sends *)

Lemma emits_only {A} P n (m : M A) : emits P n m -> only P m.
Proof.
  intros Hm st. destruct (Hm st) as (new & H1 & _ & H3 & H4). exists new. auto.
Qed.

Lemma only_impl {A} (P Q : request -> Prop) (m : M A) :
  (forall r, P r -> Q r) -> only P m -> only Q m.
Proof.
  intros HPQ Hm st. destruct (Hm st) as (new & H1 & H2 & H3).
  exists new. repeat split; auto. eapply Forall_impl; eauto.
Qed.

Lemma only_bind {A B} P (m : M A) (k : A -> M B) :
  only P m -> (forall a, only P (k a)) -> only P (bind m k).
Proof.
  intros Hm Hk st. unfold bind.
  destruct (Hm st) as (new1 & H1 & H2 & H3).
  destruct (m st) as [[a | e |] st1]; cbn [snd] in *;
    [| exists new1; auto ..].
  destruct (Hk a st1) as (new2 & G1 & G2 & G3).
  exists (new2 ++ new1). rewrite G1, H1, G3, H3.
  repeat split; [apply app_assoc | apply Forall_app; auto].
Qed.

Lemma only_pure {A} P (m : M A) : (forall st, snd (m st) = st) -> only P m.
Proof. intros H st. exists []. rewrite H. cbn. auto. Qed.

Lemma only_if {A} P (b : bool) (m1 m2 : M A) :
  only P m1 -> only P m2 -> only P (if b then m1 else m2).
Proof. destruct b; auto. Qed.

Lemma is_get_query r : is_get r -> is_query r.
Proof. destruct r; cbn; auto. Qed.

Lemma only_bind_names P kn (getter : string -> M (option entity)) :
  (forall name, only P (getter name)) ->
  forall names i entities, only P (bind_names kn getter i names entities).
Proof.
  intros Hg names. induction names as [| name names IH]; intros i entities.
  - apply only_pure. reflexivity.
  - cbn [bind_names]. apply only_bind; [| intros; apply IH].
    destruct name; cbn [call_getter]; try (apply only_pure; reflexivity).
    apply Hg.
Qed.

Lemma only_bind_kind W interpretation key k entities :
  only is_query (bind_kind interpretation key (kindname k) (resolve W k) entities).
Proof.
  unfold bind_kind.
  apply only_bind; [apply only_pure; reflexivity | intros listed].
  apply only_bind; [apply only_pure; reflexivity | intros names].
  apply only_bind_names. intros name.
  apply (only_impl is_get); [exact is_get_query |].
  exact (emits_only _ _ _ (resolve_emits W k name)).
Qed.

Lemma solve_problem_only W text : only is_query (solve_problem W text).
Proof.
  unfold solve_problem. apply only_bind.
  - intros st. exists [PostChat text].
    destruct (interpret_problem_outcome W text st) as (-> & _).
    split; [reflexivity |]. split; [| reflexivity].
    constructor; [exact I | constructor].
  - intros interpretation. apply only_if; [apply only_pure; reflexivity |].
    apply only_bind.
    + unfold bindings.
      apply only_bind; [apply (only_bind_kind W _ _ Character) | intros ?].
      apply only_bind; [apply (only_bind_kind W _ _ Planet) | intros ?].
      apply (only_bind_kind W _ _ Pokemon).
    + intros entities. apply only_pure. intros st.
      apply evaluate_outcome.
Qed.

Lemma answers_queries new st st' :
  sent st' = new ++ sent st -> Forall is_query new -> answers st' = answers st.
Proof.
  intros Hs Hq. unfold answers. rewrite Hs. clear Hs.
  induction Hq as [| r new Hr Hq IH]; [reflexivity |].
  cbn. destruct r; cbn in *; [exact IH | exact IH | destruct Hr].
Qed.

Lemma solve_problem_trace W text st :
  answers (snd (solve_problem W text st)) = answers st
  /\ ticks (snd (solve_problem W text st)) = ticks st
  /\ exists new,
       sent (snd (solve_problem W text st)) = new ++ sent st
       /\ Forall is_query new.
Proof.
  destruct (solve_problem_only W text st) as (new & H1 & H2 & H3).
  split; [exact (answers_queries new st _ H1 H2) |].
  split; [exact H3 |]. exists new. auto.
Qed.


(** ** The counters of the challenge loop *)


Lemma answers_tick st : answers (tick st) = answers st.
Proof. reflexivity. Qed.

(** One execution of the body of the loop. *)
Lemma attempt_accounted W ls st nx ls' st' :
  attempt W ls st = (Ok (nx, ls'), st') ->
  problems_attempted ls' = S (problems_attempted ls)
  /\ ((nx = Continue /\ problems_solved ls' = S (problems_solved ls)
       /\ exists a, answers st' = a :: answers st)
      \/ (nx = Break /\ problems_solved ls' = problems_solved ls
          /\ (answers st' = answers st \/ exists a, answers st' = a :: answers st))).
Proof.
  unfold attempt. unfold bind at 1. rewrite time_time_eq.
  unfold bind at 1, lift at 1.
  destruct (getitem (current_problem ls) "problem") as [text | |]; try discriminate.
  unfold bind at 1.
  destruct (solve_problem_trace W text (tick st)) as (Hans & _ & _).
  destruct (solve_problem W text (tick st)) as [[solved | |] st3];
    try discriminate.
  cbn [snd] in Hans. rewrite answers_tick in Hans.
  unfold try_except. unfold bind at 1, lift at 1.
  destruct (getitem (current_problem ls) "id") as [id | |].
  - unfold bind at 1. rewrite session_send_eq.
    set (answer := match solved with VNone => VInt 0 | _ => solved end).
    assert (Hsub : answers (sending (PostSolution id answer) st3)
                   = answer :: answers st) by (cbn; rewrite <- Hans; reflexivity).
    destruct (respond W (length (sent st3)) (PostSolution id answer)) as [| [result |]].
    + intros [= <- <- <-]. split; [reflexivity |]. right. eauto.
    + unfold bind at 1, lift at 1. cbn [response_json].
      unfold bind at 1, lift at 1.
      destruct (contains_key result "problem") as [[|] | |].
      * intros [= <- <- <-]. split; [reflexivity |]. left. eauto.
      * intros [= <- <- <-]. split; [reflexivity |]. right. eauto.
      * intros [= <- <- <-]. split; [reflexivity |]. right. eauto.
      * discriminate.
    + intros [= <- <- <-]. split; [reflexivity |]. right. eauto.
  - intros [= <- <- <-]. split; [reflexivity |]. right. eauto.
  - discriminate.
Qed.

Lemma accounted_refl ls st : accounted ls ls st st.
Proof. exists 0, 0, 0. repeat split; lia. Qed.

Lemma loop_accounted W fuel start ls st ls' st' :
  challenge_loop W fuel start ls st = (Ok ls', st') ->
  accounted ls ls' st st'.
Proof.
  revert ls st. induction fuel as [| fuel IH]; intros ls st; [discriminate |].
  cbn [challenge_loop]. unfold bind at 1. unfold iteration at 1.
  unfold bind at 1. rewrite time_time_eq.
  destruct (in_time (clock W (ticks st)) start).
  - destruct (attempt W ls (tick st)) as [[[nx ls1] | |] st1] eqn:Hat;
      try discriminate.
    apply attempt_accounted in Hat as (Ha & Hcase). rewrite answers_tick in Hcase.
    cbn [fst snd].
    destruct Hcase as [(-> & Hs & a & Hans) | (-> & Hs & Hans)].
    + intros Hloop. apply IH in Hloop as (s & n & a' & H1 & H2 & H3 & H4 & H5 & H6).
      exists (S s), (S n), (S a'). rewrite Hans in H2. cbn [length] in H2.
      repeat split; lia.
    + intros [= <- <-].
      destruct Hans as [Hans | [a Hans]].
      * exists 0, 0, 1. rewrite Hans. repeat split; lia.
      * exists 0, 1, 1. rewrite Hans. cbn [length]. repeat split; lia.
  - cbn [ret fst snd]. intros [= <- <-].
    exists 0, 0, 0. rewrite answers_tick. repeat split; lia.
Qed.

(** X13. The counters of the loop and the submissions agree: over any
    stretch of the loop that ends normally, the problems counted as
    solved are at most the answers submitted, these are at most the
    problems attempted, and the attempted exceed the solved by at most
    one (the attempt that ended the loop). *)
Theorem loop_counters_are_accounted W fuel start ls st ls' st' :
  challenge_loop W fuel start ls st = (Ok ls', st') ->
  accounted ls ls' st st'.
Proof. exact (loop_accounted W fuel start ls st ls' st'). Qed.

Lemma loop_counters_are_accounted_witness :
  accounted
    {| current_problem := problem "p1" "Luke trains with Pikachu";
       problems_solved := 0; problems_attempted := 0 |}
    {| current_problem := problem "p2" "Another problem";
       problems_solved := 1; problems_attempted := 2 |}
    initial
    (snd (challenge_loop mute_world 5 0
            {| current_problem := problem "p1" "Luke trains with Pikachu";
               problems_solved := 0; problems_attempted := 0 |} initial)).
Proof.
  apply (loop_counters_are_accounted mute_world 5 0).
  vm_compute. reflexivity.
Defined.

(** ** [run_challenge] as a whole *)






(** ** More on the getters *)

Lemma pokemon_fetch_sent W name st :
  sent (snd (pokemon_fetch W name st))
  = Get (POKEAPI_URL ++ "/pokemon/" ++ str_lower name) :: sent st.
Proof.
  unfold pokemon_fetch, try_except. unfold bind at 1. rewrite session_send_eq.
  destruct (respond W (length (sent st))
              (Get (POKEAPI_URL ++ "/pokemon/" ++ str_lower name))) as [| [data |]];
    try reflexivity.
  unfold bind, lift. cbn [response_json].
  repeat match goal with
         | |- context [match ?o with Ok _ => _ | Raise _ => _ | Unmodelled => _ end] =>
             destruct o
         end; reflexivity.
Qed.

Lemma resolve_keeps_absent W k name st name' :
  name' <> name ->
  cache_find (table k st) name' = None ->
  cache_find (table k (snd (resolve W k name st))) name' = None.
Proof.
  intros Hne Habs. rewrite resolve_table.
  assert (Hcons : forall v c, cache_find c name' = None ->
                              cache_find ((name, v) :: c) name' = None).
  { intros v c Hc. cbn. destruct (String.eqb name name') eqn:Hk; [| exact Hc].
    apply String.eqb_eq in Hk. congruence. }
  assert (Htake : forall n c, cache_find c name' = None ->
                              cache_find (take n c) name' = None).
  { intros n c. revert n. induction c as [| [k0 v0] c IH]; intros [| n]; cbn; auto.
    destruct (String.eqb k0 name'); [discriminate | apply IH]. }
  destruct (cache_find (table k st) name) as [v |].
  - apply Hcons. rewrite cache_find_remove_ne by exact Hne. exact Habs.
  - destruct (fst (fetch W k name st)); try exact Habs.
    apply Htake, Hcons, Habs.
Qed.

(** X17. The memo table of the pokemon getter is keyed by the name as
    written, the request by the name in lower case: after one spelling
    was resolved, another spelling of the same pokemon that is not in the
    table asks the data source again, at the same URL. *)
Theorem pokemon_spellings_are_fetched_twice W n1 n2 st :
  n2 <> n1 ->
  str_lower n2 = str_lower n1 ->
  cache_find (pokemon_cache st) n2 = None ->
  sent (snd (get_pokemon W n2 (snd (get_pokemon W n1 st))))
  = Get (POKEAPI_URL ++ "/pokemon/" ++ str_lower n1)
      :: sent (snd (get_pokemon W n1 st)).
Proof.
  intros Hne Hlow Habs.
  pose proof (resolve_keeps_absent W Pokemon n1 st n2 Hne Habs) as Habs1.
  cbn [resolve table] in Habs1.
  set (st1 := snd (get_pokemon W n1 st)) in *.
  pose proof (pokemon_fetch_sent W n2 st1) as Hsent. rewrite Hlow in Hsent.
  unfold get_pokemon at 1, lru_cache. rewrite Habs1.
  destruct (pokemon_fetch W n2 st1) as [[v | e |] st2]; cbn [snd] in *;
    try exact Hsent.
  destruct (cache_find (pokemon_cache st2) n2); exact Hsent.
Qed.

Lemma pokemon_spellings_are_fetched_twice_witness :
  sent (snd (get_pokemon (world_of scenario1 0) "pikachu"
               (snd (get_pokemon (world_of scenario1 0) "Pikachu" initial))))
  = Get (POKEAPI_URL ++ "/pokemon/" ++ str_lower "Pikachu")
      :: sent (snd (get_pokemon (world_of scenario1 0) "Pikachu" initial)).
Proof.
  apply (pokemon_spellings_are_fetched_twice (world_of scenario1 0)
           "Pikachu" "pikachu" initial); [discriminate | reflexivity | reflexivity].
Defined.

(** X18. A planet whose five numeric fields are all the text "unknown"
    resolves, with every one of them set to the integer 0. *)
Theorem unknown_planet_fields_are_zero W name st data results planet n :
  respond W (length (sent st)) (Get (SWAPI_URL ++ "/planets/?search=" ++ name))
    = Body (Some data) ->
  getitem data "results" = Ok results ->
  truthy results = true ->
  getitem0 results = Ok planet ->
  getitem planet "name" = Ok n ->
  (forall key, key ∈ ["rotation_period"; "orbital_period"; "diameter";
                      "surface_water"; "population"] ->
               getitem planet key = Ok (VStr "unknown")) ->
  fst (planet_fetch W name st)
  = Ok (Some [("name", n); ("rotation_period", VInt 0); ("orbital_period", VInt 0);
              ("diameter", VInt 0); ("surface_water", VInt 0);
              ("population", VInt 0)]).
Proof.
  intros Hresp Hres Htr Hp Hn Hunk.
  assert (Hz : forall key,
             key ∈ ["rotation_period"; "orbital_period"; "diameter";
                    "surface_water"; "population"] ->
             float_unless_unknown planet key = Ok (VInt 0))
    by (intros key Hk; apply unknown_is_zero, Hunk, Hk).
  unfold planet_fetch, try_except. unfold bind at 1.
  rewrite session_send_eq, Hresp.
  unfold bind at 1, lift at 1. cbn [response_json].
  unfold bind at 1, lift at 1. rewrite Hres, Htr.
  unfold bind at 1, lift at 1. rewrite Hp.
  unfold bind at 1, lift at 1. rewrite Hn.
  unfold bind, lift.
  rewrite !Hz by (repeat (apply elem_of_cons; (left; reflexivity) || right);
                  try apply elem_of_cons; auto).
  reflexivity.
Qed.

Lemma unknown_planet_fields_are_zero_witness :
  fst (planet_fetch odd_world "Stewjon" initial)
  = Ok (Some [("name", VStr "Stewjon"); ("rotation_period", VInt 0);
              ("orbital_period", VInt 0); ("diameter", VInt 0);
              ("surface_water", VInt 0); ("population", VInt 0)]).
Proof.
  apply (unknown_planet_fields_are_zero odd_world "Stewjon" initial
           (search_result unknown_planet) (VList [unknown_planet]) unknown_planet);
    try reflexivity.
  intros key Hk.
  repeat (apply elem_of_cons in Hk as [-> | Hk]; [reflexivity |]).
  apply elem_of_nil in Hk. destruct Hk.
Defined.



(** X20. An intent that is falsy (null, an empty object or list, 0, an
    empty text) counts as a failed translation: [solve_problem] returns
    [None] after the one request to the language service, resolving
    nothing. *)
Theorem falsy_intent_is_none W text st interpretation :
  fst (interpret_problem W text st) = Ok interpretation ->
  truthy interpretation = false ->
  solve_problem W text st = (Ok VNone, sending (PostChat text) st).
Proof.
  intros Hint Hfalsy.
  destruct (interpret_problem_outcome W text st) as (Hsnd & _ & _).
  unfold solve_problem. unfold bind at 1.
  destruct (interpret_problem W text st) as [o st1]. cbn [fst snd] in *.
  subst o st1. rewrite Hfalsy. reflexivity.
Qed.

Lemma falsy_intent_is_none_witness :
  solve_problem (world_of "{}" 0) (VStr "Luke trains with Pikachu") initial
  = (Ok VNone, sending (PostChat (VStr "Luke trains with Pikachu")) initial).
Proof.
  apply (falsy_intent_is_none (world_of "{}" 0) (VStr "Luke trains with Pikachu")
           initial (VDict [])); reflexivity.
Defined.
